(** * web-music-player: playback sequencer, engine, signal tap and bars

    A shallow embedding of [src/contexts/AudioContext.tsx] (the reducer,
    the sequencer functions and the provider's transport operations) and of
    the analyser / bar renderer of the [Waveform] component, with the
    properties of the design document proved or refuted on it.

    Conventions.
    - A JS [number] that is used as an index or a length is a [Z]; the
      "not found" and "no next" results are [-1], as in the source.
    - A JS [number] that is a time, a volume or a pixel size is a [Q].
    - [arr[k]] is [js_index arr k : option _]; [None] is [undefined].
    - [Math.random()] is an oracle [nat -> Q]: the value of its k-th call. *)

From Stdlib Require Import ZArith QArith Qround Lia.
From stdpp Require Import base option list strings gmap.

Open Scope Z_scope.

(** ** JavaScript array primitives used by the source *)

Module JS.

(** [arr[k]] for a number [k]: [undefined] outside [0 .. length-1]. *)
Definition js_index {A} (arr : list A) (k : Z) : option A :=
  if k <? 0 then None else arr !! Z.to_nat k.

(** [arr.length] *)
Definition js_length {A} (arr : list A) : Z := Z.of_nat (length arr).

Fixpoint findIndex_from {A} (p : A -> bool) (arr : list A) (k : Z) : Z :=
  match arr with
  | [] => -1
  | x :: rest => if p x then k else findIndex_from p rest (k + 1)
  end.

(** [arr.findIndex(p)]: the first position whose element satisfies [p],
    and [-1] when there is none. *)
Definition findIndex {A} (p : A -> bool) (arr : list A) : Z :=
  findIndex_from p arr 0.

(** [Array.from({ length: n }, (_, i) => i)] *)
Definition array_from_length (n : Z) : list Z := seqZ 0 n.

(** [arr.splice(start, 1)] for [start >= 0] (the only way the source
    calls it): removes the element at [start], and nothing when [start]
    is past the end. *)
Definition splice1 {A} (arr : list A) (start : Z) : list A :=
  delete (Z.to_nat start) arr.

(** [[arr[i], arr[j]] = [arr[j], arr[i]]].  Both reads happen first, then
    [arr[i]] and [arr[j]] are written in this order.  A read outside the
    array would store [undefined] (and the write would grow the array):
    that leaves arrays of numbers, so the result is [None] there. *)
Definition swap_in_place (arr : list Z) (i j : nat) : option (list Z) :=
  match arr !! j, arr !! i with
  | Some aj, Some ai => Some (<[j := ai]> (<[i := aj]> arr))
  | _, _ => None
  end.

(** [x || 0] on numbers: [0] is the only falsy rational. *)
Definition or_zero (x : Q) : Q := if Qeq_bool x 0 then 0%Q else x.

End JS.

Import JS.

(** ** Types ([src/types/index.ts]) *)

Record Track := mkTrack {
  id : string;
  title : string;
  artist : string;
  track_duration : Q;
  url : string;
  file : option positive;
  format : option string;
  albumArt : option string
}.

Inductive RepeatMode := RepeatNone | RepeatOne | RepeatAll.

Record AudioState := mkAudioState {
  isPlaying : bool;
  currentTrack : option Track;
  currentTime : Q;
  duration : Q;
  volume : Q;
  isLoading : bool;
  playlist : list Track;
  currentIndex : Z;
  isShuffled : bool;
  repeatMode : RepeatMode;
  shuffledIndices : list Z
}.

Inductive AudioAction :=
| SET_PLAYING (payload : bool)
| SET_CURRENT_TRACK (payload : option Track)
| SET_CURRENT_TIME (payload : Q)
| SET_DURATION (payload : Q)
| SET_VOLUME (payload : Q)
| SET_LOADING (payload : bool)
| SET_PLAYLIST (payload : list Track)
| ADD_TO_PLAYLIST (payload : list Track)
| REMOVE_FROM_PLAYLIST (payload : string)
| SET_CURRENT_INDEX (payload : Z)
| TOGGLE_SHUFFLE
| SET_REPEAT_MODE (payload : RepeatMode)
| SET_SHUFFLED_INDICES (payload : list Z).

Definition initialState : AudioState :=
  {| isPlaying := false; currentTrack := None; currentTime := 0%Q;
     duration := 0%Q; volume := (8 # 10)%Q; isLoading := false;
     playlist := []; currentIndex := -1; isShuffled := false;
     repeatMode := RepeatNone; shuffledIndices := [] |}.

(** ** The sequencer ([AudioContext.tsx], lines 91-162) *)

Section Shuffle.

(** The values [Math.random()] returns, in call order. *)
Variable random : nat -> Q.

(** [Math.floor(Math.random() * (i + 1))] at the [k]-th call. *)
Definition draw (k i : nat) : Z :=
  Qfloor (random k * inject_Z (Z.of_nat i + 1)).

(** The Fisher-Yates loop [for (i = ...; i > 0; i--)], entered with
    counter [i] after [k] calls of [Math.random]. *)
Fixpoint fisher_yates (k i : nat) (indices : list Z) : option (list Z) :=
  match i with
  | O => Some indices
  | S i' =>
      let j := draw k i in
      if j <? 0 then None
      else indices' ← swap_in_place indices i (Z.to_nat j);
           fisher_yates (S k) i' indices'
  end.

Definition generateShuffledIndices (playlistLength currentIndex : Z)
  : option (list Z) :=
  let indices := array_from_length playlistLength in
  let indices :=
    if 0 <=? currentIndex then splice1 indices currentIndex else indices in
  fisher_yates 0 (length indices - 1) indices.

End Shuffle.

Definition is_all (m : RepeatMode) : bool :=
  match m with RepeatAll => true | _ => false end.

Definition getNextTrackIndex (currentIndex playlistLength : Z)
    (isShuffled : bool) (shuffledIndices : list Z) (repeatMode : RepeatMode)
  : option Z :=
  if playlistLength =? 0 then Some (-1)
  else if isShuffled && (0 <? js_length shuffledIndices) then
    let currentShuffleIndex :=
      findIndex (fun idx => idx =? currentIndex) shuffledIndices in
    let nextShuffleIndex := currentShuffleIndex + 1 in
    if nextShuffleIndex <? js_length shuffledIndices then
      js_index shuffledIndices nextShuffleIndex
    else if is_all repeatMode then js_index shuffledIndices 0
    else Some (-1)
  else
    let nextIndex := currentIndex + 1 in
    if nextIndex <? playlistLength then Some nextIndex
    else if is_all repeatMode then Some 0
    else Some (-1).

Definition getPreviousTrackIndex (currentIndex playlistLength : Z)
    (isShuffled : bool) (shuffledIndices : list Z) : option Z :=
  if playlistLength =? 0 then Some (-1)
  else if isShuffled && (0 <? js_length shuffledIndices) then
    let currentShuffleIndex :=
      findIndex (fun idx => idx =? currentIndex) shuffledIndices in
    let prevShuffleIndex := currentShuffleIndex - 1 in
    if 0 <=? prevShuffleIndex then js_index shuffledIndices prevShuffleIndex
    else js_index shuffledIndices (js_length shuffledIndices - 1)
  else
    let prevIndex := currentIndex - 1 in
    if 0 <=? prevIndex then Some prevIndex
    else Some (playlistLength - 1).

(** The calls [nextTrack] and [previousTrack] make, on the rendered state. *)
Definition next_index_of (state : AudioState) : option Z :=
  getNextTrackIndex (currentIndex state) (js_length (playlist state))
    (isShuffled state) (shuffledIndices state) (repeatMode state).

Definition previous_index_of (state : AudioState) : option Z :=
  getPreviousTrackIndex (currentIndex state) (js_length (playlist state))
    (isShuffled state) (shuffledIndices state).

(** ** The reducer ([AudioContext.tsx], lines 49-89) *)

Definition audioReducer (random : nat -> Q) (state : AudioState)
    (action : AudioAction) : option AudioState :=
  let '(mkAudioState pl ct tm du vo lo ps ci sh rm si) := state in
  match action with
  | SET_PLAYING b => Some (mkAudioState b ct tm du vo lo ps ci sh rm si)
  | SET_CURRENT_TRACK t => Some (mkAudioState pl t tm du vo lo ps ci sh rm si)
  | SET_CURRENT_TIME q => Some (mkAudioState pl ct q du vo lo ps ci sh rm si)
  | SET_DURATION q => Some (mkAudioState pl ct tm q vo lo ps ci sh rm si)
  | SET_VOLUME q => Some (mkAudioState pl ct tm du q lo ps ci sh rm si)
  | SET_LOADING b => Some (mkAudioState pl ct tm du vo b ps ci sh rm si)
  | SET_PLAYLIST l => Some (mkAudioState pl ct tm du vo lo l ci sh rm si)
  | ADD_TO_PLAYLIST l =>
      Some (mkAudioState pl ct tm du vo lo (ps ++ l) ci sh rm si)
  | REMOVE_FROM_PLAYLIST trackId =>
      Some (mkAudioState pl ct tm du vo lo
              (filter (fun track => id track ≠ trackId) ps) ci sh rm si)
  | SET_CURRENT_INDEX i => Some (mkAudioState pl ct tm du vo lo ps i sh rm si)
  | TOGGLE_SHUFFLE =>
      if negb sh then
        order ← generateShuffledIndices random (js_length ps) ci;
        Some (mkAudioState pl ct tm du vo lo ps ci (negb sh) rm order)
      else Some (mkAudioState pl ct tm du vo lo ps ci (negb sh) rm [])
  | SET_REPEAT_MODE m => Some (mkAudioState pl ct tm du vo lo ps ci sh m si)
  | SET_SHUFFLED_INDICES l =>
      Some (mkAudioState pl ct tm du vo lo ps ci sh rm l)
  end.

(** ** The provider ([AudioContext.tsx], lines 166-317)

    The playback resource is Howler's [Howl], which is not part of the
    repository: a handle records the options it was constructed with, the
    closure its callbacks captured, and the calls made on it, in order. *)

Inductive HowlCall :=
| CallVolume (v : Q)
| CallPlay
| CallPause
| CallSeek (t : Q)
| CallUnload.

Record Howl := mkHowl {
  howl_id : positive;
  howl_src : list string;
  howl_html5 : bool;
  howl_format : option (list string);
  cb_state : AudioState;      (* [state] as captured by the callbacks *)
  cb_track : Track;           (* [track] as captured by the callbacks *)
  howl_calls : list HowlCall
}.

Definition call (c : HowlCall) (h : Howl) : Howl :=
  mkHowl (howl_id h) (howl_src h) (howl_html5 h) (howl_format h)
         (cb_state h) (cb_track h) (howl_calls h ++ [c]).

(** [audio]: the reducer state; [currentHowl]: the module-level variable;
    [released]: the handles that were unloaded and dropped; [howls_made]:
    how many [new Howl] ran. *)
Record Engine := mkEngine {
  audio : AudioState;
  currentHowl : option Howl;
  released : list Howl;
  howls_made : positive
}.

(** The events a [Howl] can emit that matter here; [EvLoad d] carries what
    [duration()] answers at that moment. *)
Inductive HowlEvent :=
| EvLoad (resource_duration : Q)
| EvLoadError
| EvPlayError
| EvPlay
| EvPause
| EvEnd
| EvStop.

Section Provider.

Variable random : nat -> Q.

(** [dispatch(action)].  [None] stands for a run that left the model: an
    array of numbers that received [undefined], or a thrown [TypeError]. *)
Definition dispatch (action : AudioAction) (e : Engine) : option Engine :=
  s ← audioReducer random (audio e) action;
  Some (mkEngine s (currentHowl e) (released e) (howls_made e)).

Definition on_howl (c : HowlCall) (e : Engine) : Engine :=
  mkEngine (audio e) (call c <$> currentHowl e) (released e) (howls_made e).

(** [track.format ? [track.format] : undefined]: the empty string is
    falsy. *)
Definition format_option (track : Track) : option (list string) :=
  match format track with
  | Some f => if bool_decide (f = "") then None else Some [f]
  | None => None
  end.

(** [playTrack(track)], in the closure whose [state] is [state]. *)
Definition playTrack (state : AudioState) (track : Track) (e : Engine)
  : option Engine :=
  let e :=
    match currentHowl e with
    | Some h =>
        mkEngine (audio e) None (released e ++ [call CallUnload h])
                 (howls_made e)
    | None => e
    end in
  e ← dispatch (SET_LOADING true) e;
  e ← dispatch (SET_CURRENT_TRACK (Some track)) e;
  let trackIndex :=
    findIndex (fun t => bool_decide (id t = id track)) (playlist state) in
  e ← dispatch (SET_CURRENT_INDEX trackIndex) e;
  let howl :=
    mkHowl (howls_made e) [url track] true (format_option track)
           state track [] in
  let e := mkEngine (audio e) (Some howl) (released e)
                    (Pos.succ (howls_made e)) in
  let e := on_howl (CallVolume (volume state)) e in
  Some (on_howl CallPlay e).

(** [playTrack(state.playlist[k])]: reading a track that is not there
    gives [undefined], and [playTrack(undefined)] throws on [track.id] or
    [track.url]. *)
Definition playTrack_at (state : AudioState) (k : option Z) (e : Engine)
  : option Engine :=
  k ← k; track ← js_index (playlist state) k; playTrack state track e.

Definition is_minus_one (k : option Z) : bool :=
  match k with Some (-1) => true | _ => false end.

(** The callbacks registered by [new Howl({...})]: [onload], [onplay],
    [onpause], [onend], [onstop].  No other event has a handler. *)
Definition on_event (ev : HowlEvent) (e : Engine) : option Engine :=
  match currentHowl e with
  | None => Some e
  | Some h =>
      match ev with
      | EvLoad d =>
          e ← dispatch (SET_DURATION (or_zero d)) e;
          dispatch (SET_LOADING false) e
      | EvPlay => dispatch (SET_PLAYING true) e
      | EvPause => dispatch (SET_PLAYING false) e
      | EvEnd =>
          e ← dispatch (SET_PLAYING false) e;
          let state := cb_state h in
          let track := cb_track h in
          let currentIndex :=
            findIndex (fun t => bool_decide (id t = id track))
                      (playlist state) in
          match repeatMode state with
          | RepeatOne => playTrack state track e
          | _ =>
              let nextIndex :=
                getNextTrackIndex currentIndex (js_length (playlist state))
                  (isShuffled state) (shuffledIndices state)
                  (repeatMode state) in
              if is_minus_one nextIndex then Some e
              else playTrack_at state nextIndex e
          end
      | EvStop => dispatch (SET_PLAYING false) e
      | EvLoadError | EvPlayError => Some e
      end
  end.

Definition pause (e : Engine) : option Engine := Some (on_howl CallPause e).

Definition resume (e : Engine) : option Engine := Some (on_howl CallPlay e).

Definition nextTrack (e : Engine) : option Engine :=
  let nextIndex := next_index_of (audio e) in
  if is_minus_one nextIndex then Some e
  else playTrack_at (audio e) nextIndex e.

Definition previousTrack (e : Engine) : option Engine :=
  let prevIndex := previous_index_of (audio e) in
  if is_minus_one prevIndex then Some e
  else playTrack_at (audio e) prevIndex e.

Definition setVolume (volume : Q) (e : Engine) : option Engine :=
  e ← dispatch (SET_VOLUME volume) e;
  Some (on_howl (CallVolume volume) e).

Definition seekTo (time : Q) (e : Engine) : option Engine :=
  match currentHowl e with
  | Some _ =>
      let e := on_howl (CallSeek time) e in
      dispatch (SET_CURRENT_TIME time) e
  | None => Some e
  end.

Definition addToPlaylist (tracks : list Track) (e : Engine)
  : option Engine := dispatch (ADD_TO_PLAYLIST tracks) e.

Definition removeFromPlaylist (trackId : string) (e : Engine)
  : option Engine := dispatch (REMOVE_FROM_PLAYLIST trackId) e.

Definition getCurrentHowl (e : Engine) : option Howl := currentHowl e.

Definition toggleShuffle (e : Engine) : option Engine :=
  dispatch TOGGLE_SHUFFLE e.

Definition setRepeatMode (mode : RepeatMode) (e : Engine) : option Engine :=
  dispatch (SET_REPEAT_MODE mode) e.

(** The polling effect (lines 292-317).  [animationFrame] and
    [lastUpdateTime] are the effect's local variables; [playing] is the
    [state.isPlaying] the effect closed over; [position] is what
    [currentHowl.seek()] answers, [None] when that is not a number. *)
Record Poller := mkPoller {
  animationFrame : option positive;
  lastUpdateTime : Q;
  frames_requested : positive
}.

Definition requestAnimationFrame (p : Poller) : Poller :=
  mkPoller (Some (frames_requested p)) (lastUpdateTime p)
           (Pos.succ (frames_requested p)).

Definition updateTime (playing : bool) (timestamp : Q)
    (position : option Q) (p : Poller) (e : Engine)
  : option (Poller * Engine) :=
  match currentHowl e with
  | Some _ =>
      if playing then
        if Qle_bool 250 (timestamp - lastUpdateTime p) then
          let currentTime := default 0%Q position in
          e ← dispatch (SET_CURRENT_TIME currentTime) e;
          let p := mkPoller (animationFrame p) timestamp
                            (frames_requested p) in
          Some (requestAnimationFrame p, e)
        else Some (requestAnimationFrame p, e)
      else Some (p, e)
  | None => Some (p, e)
  end.

End Provider.

(** ** The signal tap and the bar renderer (the [Waveform] component)

    The Web Audio objects are the browser's: the model keeps, for each one,
    what the component reads back from it, and counts every creation.  What
    the browser decides during one call (a constructor that throws, a
    promise that rejects) is an [AttachEnv]. *)

Module Waveform.

Inductive ContextState := Running | Suspended | Closed.

Record AudioCtx := mkAudioCtx { ctx_id : nat; ctx_state : ContextState }.

Record Analyser := mkAnalyser {
  analyser_id : nat;
  fftSize : Z;
  smoothingTimeConstant : Q
}.

(** [analyser.frequencyBinCount]: half the transform size. *)
Definition frequencyBinCount (a : Analyser) : Z := fftSize a / 2.

(** The audio element of a [Howl] ([howl._sounds[0]._node]) with the two
    marks the component leaves on it. *)
Record AudioElement := mkAudioElement {
  data_connected : option string;     (* the ['data-connected'] attribute *)
  audioSourceNode : option nat;
  readyState : Z
}.

Inductive Target := ToAnalyser (a : nat) | ToDestination.

Record Canvas := mkCanvas {
  canvas_width : Q;
  canvas_height : Q;
  has_2d_context : bool
}.

Record Tap := mkTap {
  canvasRef : option Canvas;
  animationFrameRef : option nat;
  audioContextRef : option AudioCtx;
  analyserRef : option Analyser;
  dataArrayRef : option (list Byte.byte);
  sourceNodeRef : option nat;
  connectedHowlRef : option positive;
  (* the browser side *)
  elements : gmap positive AudioElement;  (* by [howl_id] *)
  edges : list (nat * Target);            (* live [connect] edges *)
  contexts_created : nat;
  analysers_created : nat;
  sources_created : nat;
  frames_requested : nat
}.

Record AttachEnv := mkAttachEnv {
  constructor_throws : bool;     (* [new AudioContext()] *)
  starts_suspended : bool;
  resume_rejects : bool;         (* [await ctx.resume()] *)
  disconnect_throws : bool;
  create_source_throws : bool;   (* [createMediaElementSource] *)
  connect_analyser_throws : bool;
  connect_destination_throws : bool
}.

(** Field updates. *)
Definition set_context (c : option AudioCtx) (t : Tap) : Tap :=
  mkTap (canvasRef t) (animationFrameRef t) c (analyserRef t)
    (dataArrayRef t) (sourceNodeRef t) (connectedHowlRef t) (elements t)
    (edges t) (contexts_created t) (analysers_created t)
    (sources_created t) (frames_requested t).

Definition new_context (suspended : bool) (t : Tap) : Tap :=
  mkTap (canvasRef t) (animationFrameRef t)
    (Some (mkAudioCtx (contexts_created t)
             (if suspended then Suspended else Running)))
    (analyserRef t) (dataArrayRef t) (sourceNodeRef t)
    (connectedHowlRef t) (elements t) (edges t)
    (S (contexts_created t)) (analysers_created t) (sources_created t)
    (frames_requested t).

Definition set_source (s : option nat) (t : Tap) : Tap :=
  mkTap (canvasRef t) (animationFrameRef t) (audioContextRef t)
    (analyserRef t) (dataArrayRef t) s (connectedHowlRef t) (elements t)
    (edges t) (contexts_created t) (analysers_created t)
    (sources_created t) (frames_requested t).

Definition set_connected (h : option positive) (t : Tap) : Tap :=
  mkTap (canvasRef t) (animationFrameRef t) (audioContextRef t)
    (analyserRef t) (dataArrayRef t) (sourceNodeRef t) h (elements t)
    (edges t) (contexts_created t) (analysers_created t)
    (sources_created t) (frames_requested t).

Definition set_elements (m : gmap positive AudioElement) (t : Tap) : Tap :=
  mkTap (canvasRef t) (animationFrameRef t) (audioContextRef t)
    (analyserRef t) (dataArrayRef t) (sourceNodeRef t)
    (connectedHowlRef t) m (edges t) (contexts_created t)
    (analysers_created t) (sources_created t) (frames_requested t).

Definition set_edges (l : list (nat * Target)) (t : Tap) : Tap :=
  mkTap (canvasRef t) (animationFrameRef t) (audioContextRef t)
    (analyserRef t) (dataArrayRef t) (sourceNodeRef t)
    (connectedHowlRef t) (elements t) l (contexts_created t)
    (analysers_created t) (sources_created t) (frames_requested t).

Definition set_frame (f : option nat) (t : Tap) : Tap :=
  mkTap (canvasRef t) f (audioContextRef t) (analyserRef t)
    (dataArrayRef t) (sourceNodeRef t) (connectedHowlRef t) (elements t)
    (edges t) (contexts_created t) (analysers_created t)
    (sources_created t) (frames_requested t).

(** [createAnalyser()], [fftSize = 512], [smoothingTimeConstant = 0.8] and
    [new Uint8Array(frequencyBinCount)] (zero-filled). *)
Definition new_analyser (t : Tap) : Tap :=
  let a := mkAnalyser (analysers_created t) 512 (8 # 10) in
  mkTap (canvasRef t) (animationFrameRef t) (audioContextRef t) (Some a)
    (Some (replicate (Z.to_nat (frequencyBinCount a)) Byte.x00))
    (sourceNodeRef t) (connectedHowlRef t) (elements t) (edges t)
    (contexts_created t) (S (analysers_created t)) (sources_created t)
    (frames_requested t).

(** [createMediaElementSource(howlNode)] followed by
    [howlNode.audioSourceNode = sourceNodeRef.current]. *)
Definition new_source (h : positive) (el : AudioElement) (t : Tap) : Tap :=
  let s := sources_created t in
  mkTap (canvasRef t) (animationFrameRef t) (audioContextRef t)
    (analyserRef t) (dataArrayRef t) (Some s) (connectedHowlRef t)
    (<[h := mkAudioElement (data_connected el) (Some s) (readyState el)]>
       (elements t))
    (edges t) (contexts_created t) (analysers_created t) (S s)
    (frames_requested t).

Definition remove_mark (el : AudioElement) : AudioElement :=
  mkAudioElement None (audioSourceNode el) (readyState el).

Definition set_mark (el : AudioElement) : AudioElement :=
  mkAudioElement (Some "true") (audioSourceNode el) (readyState el).

Definition clear_source (el : AudioElement) : AudioElement :=
  mkAudioElement (data_connected el) None (readyState el).

Definition is_marked (el : AudioElement) : bool :=
  bool_decide (data_connected el = Some "true").

Definition same_howl (r : option positive) (h : positive) : bool :=
  bool_decide (r = Some h).

(** Lines 58-65: disconnect and forget the previous source node. *)
Definition drop_source (env : AttachEnv) (t : Tap) : Tap :=
  match sourceNodeRef t with
  | Some s =>
      let t :=
        if disconnect_throws env then t
        else set_edges (filter (fun e => e.1 ≠ s) (edges t)) t in
      set_source None t
  | None => t
  end.

(** Lines 68-77: clear the marks of the previously connected [Howl]. *)
Definition clear_previous_marks (h : positive) (t : Tap) : Tap :=
  match connectedHowlRef t with
  | Some prev =>
      if bool_decide (prev ≠ h) then
        match elements t !! prev with
        | Some el =>
            set_elements
              (<[prev := clear_source (remove_mark el)]> (elements t)) t
        | None => t
        end
      else t
  | None => t
  end.

(** Lines 122-130: both [connect] calls sit in one [try]; a throw of the
    first skips the second, and either throw is swallowed.  A missing
    source or analyser makes the first call throw. *)
Definition connect_both (env : AttachEnv) (t : Tap) : Tap :=
  match sourceNodeRef t, analyserRef t with
  | Some s, Some a =>
      if connect_analyser_throws env then t
      else
        let t := set_edges (edges t ++ [(s, ToAnalyser (analyser_id a))]) t in
        if connect_destination_throws env then t
        else set_edges (edges t ++ [(s, ToDestination)]) t
  | _, _ => t
  end.

(** Lines 89-152, for a [Howl] that has an audio element. *)
Definition tap_element (env : AttachEnv) (h : positive)
    (el : AudioElement) (t : Tap) : bool * Tap :=
  if same_howl (connectedHowlRef t) h && is_marked el
     && bool_decide (is_Some (sourceNodeRef t))
  then (true, t)
  else
    let el := if is_marked el then remove_mark el else el in
    let el :=
      if bool_decide (is_Some (audioSourceNode el)) then clear_source el
      else el in
    let t := set_elements (<[h := el]> (elements t)) t in
    if 2 <=? readyState el then
      match audioSourceNode el with
      | Some s =>
          let t := set_source (Some s) t in
          let t := connect_both env t in
          let t := set_elements (<[h := set_mark el]> (elements t)) t in
          (true, set_connected (Some h) t)
      | None =>
          if create_source_throws env then (false, t)
          else
            let t := new_source h el t in
            let t := connect_both env t in
            let t := set_elements (alter set_mark h (elements t)) t in
            (true, set_connected (Some h) t)
      end
    else (false, set_connected (Some h) t).

(** [setupAudioAnalyser()] (lines 30-158); [howl] is what
    [getCurrentHowl()] returns, by identity. *)
Definition setupAudioAnalyser (env : AttachEnv) (howl : option positive)
    (t : Tap) : bool * Tap :=
  match howl with
  | None => (false, t)
  | Some h =>
      if same_howl (connectedHowlRef t) h
         && bool_decide (is_Some (analyserRef t))
         && bool_decide (is_Some (sourceNodeRef t))
      then (true, t)
      else
        let created :=
          match audioContextRef t with
          | Some _ => Some t
          | None =>
              if constructor_throws env then None
              else Some (new_context (starts_suspended env) t)
          end in
        match created with
        | None => (false, t)
        | Some t =>
            let resumed :=
              match audioContextRef t with
              | Some (mkAudioCtx c Suspended) =>
                  if resume_rejects env then None
                  else Some (set_context (Some (mkAudioCtx c Running)) t)
              | _ => Some t
              end in
            match resumed with
            | None => (false, t)
            | Some t =>
                let t := drop_source env t in
                let t := clear_previous_marks h t in
                let t :=
                  match analyserRef t with
                  | Some _ => t
                  | None => new_analyser t
                  end in
                match elements t !! h with
                | Some el => tap_element env h el t
                | None => (false, t)
                end
            end
        end
  end.

(** *** The bar renderer ([drawFrequencyBars], lines 163-256)

    Colours are left out, geometry is kept.  A rectangle whose data read
    was [undefined] has [NaN] for a height: [None]. *)

Record Bar := mkBar {
  bar_x : Q;
  bar_width : Q;
  bar_height : option Q;
  bar_hue : Q;
  bar_glow : bool
}.

Inductive Path := RealData | Synthetic.

Record Frame := mkFrame {
  background : Q * Q;          (* the [fillRect(0, 0, width, height)] *)
  path : Path;
  bars : list Bar
}.

Definition set_data (d : option (list Byte.byte)) (t : Tap) : Tap :=
  mkTap (canvasRef t) (animationFrameRef t) (audioContextRef t)
    (analyserRef t) d (sourceNodeRef t) (connectedHowlRef t) (elements t)
    (edges t) (contexts_created t) (analysers_created t)
    (sources_created t) (frames_requested t).

(** [requestAnimationFrame(drawFrequencyBars)]: a fresh non-zero handle. *)
Definition request_frame (t : Tap) : Tap :=
  mkTap (canvasRef t) (Some (S (frames_requested t))) (audioContextRef t)
    (analyserRef t) (dataArrayRef t) (sourceNodeRef t)
    (connectedHowlRef t) (elements t) (edges t) (contexts_created t)
    (analysers_created t) (sources_created t) (S (frames_requested t)).

Definition barCount : nat := 96.
Definition barSpacing : Q := 2.

Definition barWidth (canvas : Canvas) : Q :=
  (canvas_width canvas - (inject_Z (Z.of_nat barCount) - 1) * barSpacing)
  / inject_Z (Z.of_nat barCount).

Definition bar_index (i : nat) : Q := inject_Z (Z.of_nat i).

Definition hue (i : nat) : Q :=
  280 + (bar_index i / inject_Z (Z.of_nat barCount)) * 80.

Definition byte_value (b : Byte.byte) : Q :=
  inject_Z (Z.of_N (Byte.to_N b)).

Section Draw.

(** [Math.sin], and what the browser supplies to one step:
    [spectrum k] is the byte [getByteFrequencyData] writes at bin [k],
    [now] is [Date.now()], [playing] is [isPlayingRef.current]. *)
Variable Math_sin : Q -> Q.
Variable spectrum : nat -> Byte.byte.
Variable now : Q.
Variable playing : bool.

Definition getByteFrequencyData (d : list Byte.byte) : list Byte.byte :=
  spectrum <$> seq 0 (length d).

Definition real_bar (canvas : Canvas) (d : list Byte.byte) (i : nat)
  : Bar :=
  let dataStep := (length d / barCount)%nat in
  let dataIndex := (i * dataStep)%nat in
  let normalizedValue :=
    (fun b => byte_value b / 255)%Q <$> d !! dataIndex in
  let barHeight :=
    (fun v => v * canvas_height canvas * (85 # 100))%Q <$> normalizedValue in
  let x := (bar_index i * (barWidth canvas + barSpacing))%Q in
  mkBar x (barWidth canvas) barHeight (hue i)
        (from_option (fun v => negb (Qle_bool v (1 # 2))) false
                     normalizedValue).

Definition synthetic_bar (canvas : Canvas) (i : nat) : Bar :=
  let time := (now * (3 # 1000))%Q in
  let wave :=
    (Math_sin (time + bar_index i * (3 # 10)) * (1 # 2) + (1 # 2))%Q in
  let barHeight := (wave * canvas_height canvas * (4 # 10))%Q in
  let x := (bar_index i * (barWidth canvas + barSpacing))%Q in
  mkBar x (barWidth canvas) (Some barHeight) (hue i) false.

Definition hasRealAudioData (t : Tap) : bool :=
  bool_decide (is_Some (analyserRef t))
  && bool_decide (is_Some (dataArrayRef t))
  && bool_decide (is_Some (sourceNodeRef t)).

(** One step.  [None] for the frame: nothing was painted. *)
Definition drawFrequencyBars (t : Tap) : option Frame * Tap :=
  match canvasRef t with
  | None => (None, t)
  | Some canvas =>
      if negb (has_2d_context canvas) then (None, t)
      else
        let bg := (canvas_width canvas, canvas_height canvas) in
        let '(frame, t) :=
          match dataArrayRef t with
          | Some d =>
              if hasRealAudioData t then
                let d := getByteFrequencyData d in
                (mkFrame bg RealData (real_bar canvas d <$> seq 0 barCount),
                 set_data (Some d) t)
              else
                (mkFrame bg Synthetic
                   (synthetic_bar canvas <$> seq 0 barCount), t)
          | None =>
              (mkFrame bg Synthetic
                 (synthetic_bar canvas <$> seq 0 barCount), t)
          end in
        (Some frame,
         if playing then request_frame t else set_frame None t)
  end.

End Draw.

End Waveform.

(** * Vocabulary of the properties

    Names for what the design document talks about, and field updates. *)

(** "Current's position in shuffle_order": the first occurrence, counted
    from 0, and [-1] when [current] does not occur. *)
Definition first_position (current : Z) (order : list Z) (pos : Z) : Prop :=
  (pos = -1 /\ current ∉ order) \/
  (exists pre post,
      order = pre ++ current :: post /\ (current ∉ pre) /\ pos = js_length pre).

(** The state with another repeat mode. *)
Definition with_repeatMode (m : RepeatMode) (s : AudioState) : AudioState :=
  mkAudioState (isPlaying s) (currentTrack s) (currentTime s) (duration s)
    (volume s) (isLoading s) (playlist s) (currentIndex s) (isShuffled s) m
    (shuffledIndices s).

(** What the language guarantees of [Math.random()]: a number in [0, 1). *)
Definition random_contract (random : nat -> Q) : Prop :=
  forall k, (0 <= random k)%Q /\ (random k < 1)%Q.

Definition with_volume (v : Q) (s : AudioState) : AudioState :=
  mkAudioState (isPlaying s) (currentTrack s) (currentTime s) (duration s)
    v (isLoading s) (playlist s) (currentIndex s) (isShuffled s)
    (repeatMode s) (shuffledIndices s).

Definition with_currentTime (t : Q) (s : AudioState) : AudioState :=
  mkAudioState (isPlaying s) (currentTrack s) t (duration s)
    (volume s) (isLoading s) (playlist s) (currentIndex s) (isShuffled s)
    (repeatMode s) (shuffledIndices s).

Definition with_playlist (l : list Track) (s : AudioState) : AudioState :=
  mkAudioState (isPlaying s) (currentTrack s) (currentTime s) (duration s)
    (volume s) (isLoading s) l (currentIndex s) (isShuffled s)
    (repeatMode s) (shuffledIndices s).

Definition with_loaded (d : Q) (s : AudioState) : AudioState :=
  mkAudioState (isPlaying s) (currentTrack s) (currentTime s) d
    (volume s) false (playlist s) (currentIndex s) (isShuffled s)
    (repeatMode s) (shuffledIndices s).

(** "v clamped to [0,1]", in the design document's words. *)
Definition clamp01 (v : Q) : Q :=
  if Qle_bool v 0 then 0%Q else if Qle_bool 1 v then 1%Q else v.

Module TapSpec.
Import Waveform.

(** "Attached to this exact session with a working analysis path". *)
Definition working_binding (h : positive) (t : Tap) : Prop :=
  connectedHowlRef t = Some h /\
  is_Some (analyserRef t) /\ is_Some (sourceNodeRef t).

(** How many analysis contexts, analysers and source nodes were made. *)
Definition nodes_created (t : Tap) : nat :=
  (contexts_created t + analysers_created t + sources_created t)%nat.

(** Attaching again and again, the browser free to differ each time. *)
Fixpoint attach_all (envs : list AttachEnv) (h : positive) (t : Tap)
  : list bool * Tap :=
  match envs with
  | [] => ([], t)
  | env :: rest =>
      let '(ok, t) := setupAudioAnalyser env (Some h) t in
      let '(oks, t) := attach_all rest h t in
      (ok :: oks, t)
  end.

Definition calm : AttachEnv :=
  mkAttachEnv false false false false false false false.

Definition stormy : AttachEnv :=
  mkAttachEnv true true true true true true true.

(** A mounted component, one [Howl] (id 1) whose element has data. *)
Definition fresh_tap : Tap :=
  mkTap (Some (mkCanvas 800 120 true)) None None None None None None
    {[ 1%positive := mkAudioElement None None 4 ]} [] 0 0 0 0.

Definition attached_tap : Tap :=
  (setupAudioAnalyser calm (Some 1%positive) fresh_tap).2.

(** "An analysis binding exists": analyser, data buffer and source node. *)
Definition has_binding (t : Tap) : Prop :=
  is_Some (analyserRef t) /\ is_Some (dataArrayRef t) /\
  is_Some (sourceNodeRef t).

Definition silence : nat -> Byte.byte := fun _ => Byte.x00.
Definition flat : Q -> Q := fun _ => 0%Q.

(** A tap bound to its session whose canvas is not mounted. *)
Definition tap_without_canvas : Tap :=
  mkTap None (Some 7%nat) (Some (mkAudioCtx 0 Running))
    (Some (mkAnalyser 0 512 (8 # 10))) (Some (replicate 256 Byte.x00))
    (Some 0%nat) (Some 1%positive)
    {[ 1%positive := mkAudioElement (Some "true") (Some 0%nat) 4 ]}
    [(0%nat, ToAnalyser 0); (0%nat, ToDestination)] 1 1 1 7.

End TapSpec.

(** ** Sample data *)

Definition track_of (name : string) : Track :=
  mkTrack name name "artist" 0 ("blob:" +:+ name) None None None.

Definition five_tracks : list Track :=
  track_of <$> ["a"; "b"; "c"; "d"; "e"].

(** Five tracks, the track at [index] selected, its predecessor's duration
    (10 s) still in the state. *)
Definition sample_state (index : Z) : AudioState :=
  mkAudioState false (js_index five_tracks index) 0 10 (8 # 10) false
    five_tracks index false RepeatNone [].

Definition half : nat -> Q := fun _ => (1 # 2)%Q.

(** The engine after [playTrack(a)] on the sample state. *)
Definition live_engine : Engine :=
  mkEngine
    (mkAudioState false (Some (track_of "a")) 0 10 (8 # 10) true
       five_tracks 0 false RepeatNone [])
    (Some (mkHowl 1 ["blob:a"] true None (sample_state 0) (track_of "a")
             [CallVolume (8 # 10); CallPlay]))
    [] 2.

(** ** More vocabulary *)

(** [next_index] applied [k] times from [current], shuffle off, repeat
    all. *)
Fixpoint next_times (k : nat) (current len : Z) (order : list Z)
  : option Z :=
  match k with
  | O => Some current
  | S k' =>
      c ← next_times k' current len order;
      getNextTrackIndex c len false order RepeatAll
  end.

(** The shuffle order holds indices of the playlist, and the current index
    is [-1] or more. *)
Definition indices_valid (s : AudioState) : Prop :=
  Forall (fun idx => 0 <= idx < js_length (playlist s)) (shuffledIndices s)
  /\ -1 <= currentIndex s.


(** The sample playlist, shuffle off, the track at [index] selected. *)
Definition idle_engine (index : Z) : Engine :=
  mkEngine (sample_state index) None [] 1.

(** A value of [Math.random()] for which
    [Math.floor(Math.random() * n)] is [j]. *)
Definition unit_fraction (j n : Z) : Q := (inject_Z j / inject_Z n)%Q.

(** The oracle that answers the listed values, then [0]. *)
Definition oracle_of (draws : list Q) : nat -> Q :=
  fun k => nth k draws 0%Q.

(** * The callers

    ** The transport buttons ([PlayerControls], part_000 lines 197-240)

    The handlers are rebuilt at every render, so the state they read is the
    current one. *)

Definition togglePlay (e : Engine) : option Engine :=
  if isPlaying (audio e) then pause e else resume e.

(** [isMuted] is [volume === 0]. *)
Definition toggleMute (random : nat -> Q) (e : Engine) : option Engine :=
  let isMuted := Qeq_bool (volume (audio e)) 0 in
  if isMuted then setVolume random (8 # 10) e else setVolume random 0 e.

(** [clientX] is the pointer's, [rect_left] and [rect_width] are the
    progress bar's bounding rectangle.  (A bar of width 0 is left out of
    the properties: the quotient of JS and that of [Q] differ there.) *)
Definition handleProgressClick (random : nat -> Q)
    (clientX rect_left rect_width : Q) (e : Engine) : option Engine :=
  match currentTrack (audio e) with
  | None => Some e
  | Some _ =>
      if Qeq_bool (duration (audio e)) 0 then Some e
      else
        let clickX := (clientX - rect_left)%Q in
        let progressPercentage := (clickX / rect_width)%Q in
        let newTime := (progressPercentage * duration (audio e))%Q in
        seekTo random newTime e
  end.

(** ** The uploader ([FileUpload.tsx], lines 59-64)

    What [handleFileUpload] does once the tracks are built.  [state] is the
    render the handler closed over: its [currentTrack], and the [state] of
    its [playTrack]. *)
Definition handleFileUpload (random : nat -> Q) (state : AudioState)
    (tracks : list Track) (e : Engine) : option Engine :=
  e ← addToPlaylist random tracks e;
  match tracks, currentTrack state with
  | first :: _, None => playTrack random state first e
  | _, _ => Some e
  end.

(** ** The effects of the [Waveform] component (part_003 lines 258-340) *)

Module WaveformEffects.
Import Waveform.

(** The refs of [Tap] with the cleanup flag, the ready state, and what the
    component told the browser to cancel or close. *)
Record Component := mkComponent {
  tap : Tap;
  isCleaningUpRef : bool;
  isReady : bool;
  frames_cancelled : list nat;
  contexts_closed : list nat
}.

Definition with_tap (t : Tap) (c : Component) : Component :=
  mkComponent t (isCleaningUpRef c) (isReady c) (frames_cancelled c)
              (contexts_closed c).

(** [cancelAnimationFrame(animationFrameRef.current)] and the reset of the
    ref, when there is a frame. *)
Definition cancel_frame (c : Component) : Component :=
  match animationFrameRef (tap c) with
  | Some f =>
      mkComponent (set_frame None (tap c)) (isCleaningUpRef c) (isReady c)
                  (frames_cancelled c ++ [f]) (contexts_closed c)
  | None => c
  end.

(** The mount effect (lines 258-266). *)
Definition mount (env : AttachEnv) (howl : option positive) (c : Component)
  : Component :=
  let c := mkComponent (tap c) false true (frames_cancelled c)
                       (contexts_closed c) in
  with_tap (setupAudioAnalyser env howl (tap c)).2 c.

(** Its cleanup (lines 268-303); [disconnect_fails] and [close_fails] are
    the two calls that may throw, both swallowed. *)
Definition cleanup (disconnect_fails close_fails : bool) (c : Component)
  : Component :=
  if isCleaningUpRef c then c
  else
    let c := mkComponent (tap c) true (isReady c) (frames_cancelled c)
                         (contexts_closed c) in
    let c := cancel_frame c in
    let c :=
      match sourceNodeRef (tap c) with
      | Some s =>
          let t := tap c in
          let t :=
            if disconnect_fails then t
            else set_edges (filter (fun e => e.1 ≠ s) (edges t)) t in
          with_tap (set_source None t) c
      | None => c
      end in
    let c :=
      match audioContextRef (tap c) with
      | Some ctx =>
          let closed :=
            match ctx_state ctx with
            | Closed => contexts_closed c
            | _ => if close_fails then contexts_closed c
                   else contexts_closed c ++ [ctx_id ctx]
            end in
          mkComponent (set_context None (tap c)) (isCleaningUpRef c)
                      (isReady c) (frames_cancelled c) closed
      | None => c
      end in
    with_tap (set_connected None (tap c)) c.

(** The effect on [audioUrl] (lines 306-311); [audioUrl] is truthy when it
    is a non-empty string. *)
Definition on_audioUrl (audioUrl : option string) (c : Component)
  : Component :=
  match audioUrl with
  | Some u =>
      if bool_decide (u = "") then c
      else with_tap (set_connected None (tap c)) c
  | None => c
  end.

Section Loop.

Variable Math_sin : Q -> Q.
Variable spectrum : nat -> Byte.byte.
Variable now : Q.

(** [drawFrequencyBars()] from an effect: [isPlayingRef.current] is the
    [isPlaying] of the render. *)
Definition draw (isPlaying : bool) (c : Component)
  : list Frame * Component :=
  let '(frame, t) :=
    drawFrequencyBars Math_sin spectrum now isPlaying (tap c) in
  (option_list frame, with_tap t c).

(** Lines 313-325. *)
Definition effect_run (isPlaying : bool) (c : Component)
  : list Frame * Component :=
  if isPlaying && isReady c then
    match animationFrameRef (tap c) with
    | None => draw isPlaying c
    | Some _ => ([], c)
    end
  else ([], cancel_frame c).

(** Lines 328-332; [!animationFrameRef.current] also holds for a handle
    that is [0]. *)
Definition effect_restart (isPlaying : bool) (c : Component)
  : list Frame * Component :=
  if isPlaying && isReady c
     && match animationFrameRef (tap c) with
        | None | Some O => true
        | Some _ => false
        end
  then draw isPlaying c
  else ([], c).

(** Lines 335-340. *)
Definition effect_attach (env : AttachEnv) (howl : option positive)
    (isPlaying : bool) (c : Component) : Component :=
  if isPlaying && isReady c
  then with_tap (setupAudioAnalyser env howl (tap c)).2 c
  else c.

(** The three effects, in source order, after a render in which
    [isPlaying] or [isReady] changed. *)
Definition on_playing_change (env : AttachEnv) (howl : option positive)
    (isPlaying : bool) (c : Component) : list Frame * Component :=
  let '(painted1, c) := effect_run isPlaying c in
  let '(painted2, c) := effect_restart isPlaying c in
  (painted1 ++ painted2, effect_attach env howl isPlaying c).

End Loop.

End WaveformEffects.

(** ** Runs of the provider

    Everything that can happen to the provider: a call of one of its
    operations or of a handler above, or an event of the current [Howl].
    [OpPlayTrack] and [OpUpload] carry the render their closure was built
    in, which may be any. *)
Inductive Op :=
| OpPlayTrack (state : AudioState) (track : Track)
| OpPause
| OpResume
| OpNextTrack
| OpPreviousTrack
| OpSetVolume (v : Q)
| OpSeekTo (t : Q)
| OpAddToPlaylist (tracks : list Track)
| OpRemoveFromPlaylist (trackId : string)
| OpToggleShuffle
| OpSetRepeatMode (mode : RepeatMode)
| OpTogglePlay
| OpToggleMute
| OpProgressClick (clientX rect_left rect_width : Q)
| OpUpload (state : AudioState) (tracks : list Track)
| OpHowlEvent (ev : HowlEvent).

Definition run_op (random : nat -> Q) (op : Op) (e : Engine)
  : option Engine :=
  match op with
  | OpPlayTrack state track => playTrack random state track e
  | OpPause => pause e
  | OpResume => resume e
  | OpNextTrack => nextTrack random e
  | OpPreviousTrack => previousTrack random e
  | OpSetVolume v => setVolume random v e
  | OpSeekTo t => seekTo random t e
  | OpAddToPlaylist tracks => addToPlaylist random tracks e
  | OpRemoveFromPlaylist trackId => removeFromPlaylist random trackId e
  | OpToggleShuffle => toggleShuffle random e
  | OpSetRepeatMode mode => setRepeatMode random mode e
  | OpTogglePlay => togglePlay e
  | OpToggleMute => toggleMute random e
  | OpProgressClick x l w => handleProgressClick random x l w e
  | OpUpload state tracks => handleFileUpload random state tracks e
  | OpHowlEvent ev => on_event random ev e
  end.

Fixpoint run_ops (random : nat -> Q) (ops : list Op) (e : Engine)
  : option Engine :=
  match ops with
  | [] => Some e
  | op :: rest => e ← run_op random op e; run_ops random rest e
  end.

(** The provider at its first render. *)
Definition initial_engine : Engine := mkEngine initialState None [] 1.




(** The reducer state [playTrack(track)] leaves behind. *)
Definition selecting (state : AudioState) (track : Track) (s : AudioState)
  : AudioState :=
  mkAudioState (isPlaying s) (Some track) (currentTime s) (duration s)
    (volume s) true (playlist s)
    (findIndex (fun t => bool_decide (id t = id track)) (playlist state))
    (isShuffled s) (repeatMode s) (shuffledIndices s).

(** The [Howl] it constructs, after [volume] and [play]. *)
Definition started_howl (fresh : positive) (state : AudioState)
    (track : Track) : Howl :=
  mkHowl fresh [url track] true (format_option track) state track
         [CallVolume (volume state); CallPlay].

Definition unloaded (h : option Howl) : list Howl :=
  option_list (call CallUnload <$> h).

(** What of an engine does not belong to the reducer state. *)
Definition sessions (e : Engine) : option Howl * list Howl * positive :=
  (currentHowl e, released e, howls_made e).

Definition with_isPlaying (b : bool) (s : AudioState) : AudioState :=
  mkAudioState b (currentTrack s) (currentTime s) (duration s)
    (volume s) (isLoading s) (playlist s) (currentIndex s) (isShuffled s)
    (repeatMode s) (shuffledIndices s).

(** The index [onend] computes, from the render its [Howl] closed over. *)
Definition captured_next (h : Howl) : option Z :=
  getNextTrackIndex
    (findIndex (fun t => bool_decide (id t = id (cb_track h)))
               (playlist (cb_state h)))
    (js_length (playlist (cb_state h))) (isShuffled (cb_state h))
    (shuffledIndices (cb_state h)) (repeatMode (cb_state h)).

(** ** Vocabulary for the tap and the loop *)

Module LoopSpec.
Import Waveform TapSpec WaveformEffects.

(** A component that has not attached yet. *)
Definition pristine (t : Tap) : Prop :=
  audioContextRef t = None /\ analyserRef t = None /\
  dataArrayRef t = None /\ sourceNodeRef t = None /\
  contexts_created t = 0%nat /\ analysers_created t = 0%nat.

(** The analysis context and the analyser are made lazily and once; the
    analyser has its fixed configuration and comes with its buffer of 256
    bins. *)
Definition lazy_singletons (t : Tap) : Prop :=
  contexts_created t
    = match audioContextRef t with Some _ => 1%nat | None => 0%nat end /\
  analysers_created t
    = match analyserRef t with Some _ => 1%nat | None => 0%nat end /\
  (forall a, analyserRef t = Some a ->
     fftSize a = 512 /\ smoothingTimeConstant a = (8 # 10)%Q /\
     exists d, dataArrayRef t = Some d /\ length d = 256%nat) /\
  (analyserRef t = None -> dataArrayRef t = None).

(** The part of a tap the analysis objects live in. *)
Definition tap_core (t : Tap) :=
  (audioContextRef t, analyserRef t, dataArrayRef t, contexts_created t,
   analysers_created t).

(** What happens to a mounted component between mount and cleanup: an
    attach, a step of the loop, or the browser changing the audio elements
    (a new [Howl], data arriving). *)
Inductive TapOp :=
| TapAttach (env : AttachEnv) (howl : option positive)
| TapDraw (spectrum : nat -> Byte.byte) (now : Q) (playing : bool)
| TapBrowser (elements' : gmap positive AudioElement).

Definition run_tap (Math_sin : Q -> Q) (op : TapOp) (t : Tap) : Tap :=
  match op with
  | TapAttach env howl => (setupAudioAnalyser env howl t).2
  | TapDraw spectrum now playing =>
      (drawFrequencyBars Math_sin spectrum now playing t).2
  | TapBrowser elements' => set_elements elements' t
  end.

Definition run_taps (Math_sin : Q -> Q) (ops : list TapOp) (t : Tap) : Tap :=
  foldl (fun t op => run_tap Math_sin op t) t ops.

(** The element of [h] with data arrived. *)
Definition element_ready (h : positive) (t : Tap) : Tap :=
  set_elements
    (alter (fun el => mkAudioElement (data_connected el)
                        (audioSourceNode el) 4) h (elements t)) t.

(** A mounted component showing [t], ready, nothing cancelled yet. *)
Definition mounted (t : Tap) : Component := mkComponent t false true [] [].

End LoopSpec.

Module LoopSpec2.
Import Waveform.

(** The part of a tap the loop lives in. *)
Definition loop_core (t : Tap) :=
  (canvasRef t, animationFrameRef t, frames_requested t).

End LoopSpec2.

Module AttachSpec.
Import Waveform.

(** [setupAudioAnalyser] in two stages.  Lines 45-55: get a running
    context; [false] when that failed. *)
Definition attach_context (env : AttachEnv) (t : Tap) : Tap * bool :=
  match audioContextRef t with
  | Some (mkAudioCtx c Suspended) =>
      if resume_rejects env then (t, false)
      else (set_context (Some (mkAudioCtx c Running)) t, true)
  | Some _ => (t, true)
  | None =>
      if constructor_throws env then (t, false)
      else if starts_suspended env then
        if resume_rejects env then (new_context true t, false)
        else (set_context (Some (mkAudioCtx (contexts_created t) Running))
                          (new_context true t), true)
      else (new_context false t, true)
  end.

(** Lines 57-154: rewire. *)
Definition attach_tail (env : AttachEnv) (h : positive) (t : Tap)
  : bool * Tap :=
  let t := drop_source env t in
  let t := clear_previous_marks h t in
  let t := match analyserRef t with
           | Some _ => t
           | None => new_analyser t
           end in
  match elements t !! h with
  | Some el => tap_element env h el t
  | None => (false, t)
  end.

(** The element as [tap_element] leaves it before it looks at
    [readyState]: both marks cleared. *)
Definition unmarked (el : AudioElement) : AudioElement :=
  mkAudioElement (if is_marked el then None else data_connected el) None
                 (readyState el).

End AttachSpec.

(** * Properties *)

(** ** Array primitives *)

Section ArrayFacts.

Context {A : Type}.
Implicit Types (p : A -> bool) (arr : list A).

Lemma findIndex_from_absent p arr k :
  Forall (fun x => p x = false) arr -> findIndex_from p arr k = -1.
Proof.
  intros H. revert k. induction H as [|x rest Hx _ IH]; intros k; simpl.
  - reflexivity.
  - rewrite Hx. apply IH.
Qed.

Lemma findIndex_from_first p arr k pre x post :
  arr = pre ++ x :: post ->
  Forall (fun y => p y = false) pre -> p x = true ->
  findIndex_from p arr k = k + js_length pre.
Proof.
  intros -> Hpre Hx. revert k.
  induction Hpre as [|y pre Hy _ IH]; intros k; simpl.
  - rewrite Hx. unfold js_length. simpl. lia.
  - rewrite Hy, IH. unfold js_length. simpl. lia.
Qed.

(** What [findIndex] finds is a first occurrence. *)
Lemma findIndex_from_found p arr k r :
  findIndex_from p arr k = r -> r ≠ -1 -> 0 <= k ->
  exists pre x post,
    arr = pre ++ x :: post /\ Forall (fun y => p y = false) pre /\
    p x = true /\ r = k + js_length pre.
Proof.
  revert k. induction arr as [|y rest IH]; intros k Hr Hne Hk; simpl in Hr.
  - congruence.
  - destruct (p y) eqn:Hy.
    + exists [], y, rest. unfold js_length. simpl.
      repeat split; [constructor | assumption | lia].
    + destruct (IH (k + 1) Hr Hne ltac:(lia))
        as (pre & x & post & -> & Hpre & Hx & ->).
      exists (y :: pre), x, post. unfold js_length. simpl.
      repeat split; [constructor; assumption | assumption | lia].
Qed.

Lemma findIndex_range p arr :
  -1 <= findIndex p arr < js_length arr.
Proof.
  unfold findIndex.
  destruct (decide (findIndex_from p arr 0 = -1)) as [->|Hne].
  - unfold js_length. lia.
  - destruct (findIndex_from_found p arr 0 _ eq_refl Hne ltac:(lia))
      as (pre & x & post & -> & _ & _ & ->).
    unfold js_length. rewrite length_app. simpl. lia.
Qed.

Lemma js_index_in_range arr k :
  0 <= k < js_length arr -> is_Some (js_index arr k).
Proof.
  unfold js_index, js_length. intros Hk.
  destruct (Z.ltb_spec k 0); [lia|].
  apply lookup_lt_is_Some. lia.
Qed.

Lemma js_index_nat arr (i : nat) :
  js_index arr (Z.of_nat i) = arr !! i.
Proof.
  unfold js_index. destruct (Z.ltb_spec (Z.of_nat i) 0); [lia|].
  by rewrite Nat2Z.id.
Qed.

End ArrayFacts.

Lemma findIndex_from_minus_one {A} (p : A -> bool) arr k :
  findIndex_from p arr k = -1 -> 0 <= k -> Forall (fun x => p x = false) arr.
Proof.
  revert k. induction arr as [|y rest IH]; intros k Hr Hk; simpl in Hr.
  - constructor.
  - destruct (p y) eqn:Hy; [lia|].
    constructor; [assumption | apply (IH (k + 1)); [assumption | lia]].
Qed.

(** ** The sequencer *)

Lemma eqb_false_not_in (c : Z) (l : list Z) :
  Forall (fun idx => (idx =? c) = false) l <-> c ∉ l.
Proof.
  rewrite Forall_forall. split.
  - intros H Hin. specialize (H c Hin). rewrite Z.eqb_refl in H. discriminate.
  - intros H x Hx. apply Z.eqb_neq. intros ->. contradiction.
Qed.

Lemma findIndex_first_position (c : Z) (order : list Z) :
  first_position c order (findIndex (fun idx => idx =? c) order).
Proof.
  unfold findIndex.
  destruct (decide (findIndex_from (fun idx => idx =? c) order 0 = -1))
    as [E|E].
  - left. split; [assumption|].
    apply eqb_false_not_in.
    apply (findIndex_from_minus_one _ _ 0); [assumption | lia].
  - right.
    destruct (findIndex_from_found _ order 0 _ eq_refl E ltac:(lia))
      as (pre & x & post & -> & Hpre & Hx & Hr).
    apply Z.eqb_eq in Hx. subst x.
    exists pre, post. repeat split; [by apply eqb_false_not_in | lia].
Qed.

Lemma first_position_range c order pos :
  first_position c order pos -> -1 <= pos < js_length order.
Proof.
  intros [[-> _]|(pre & post & -> & _ & ->)]; unfold js_length.
  - lia.
  - rewrite length_app. simpl. lia.
Qed.

Lemma is_all_spec m : is_all m = true <-> m = RepeatAll.
Proof. destruct m; simpl; split; congruence. Qed.

(** The shuffled branch of [getNextTrackIndex], in one equation. *)
Lemma next_shuffled_eq c n order rep :
  n ≠ 0 -> order ≠ [] ->
  getNextTrackIndex c n true order rep =
    let pos := findIndex (fun idx => idx =? c) order in
    if pos + 1 <? js_length order then js_index order (pos + 1)
    else if is_all rep then js_index order 0 else Some (-1).
Proof.
  intros Hn Ho. unfold getNextTrackIndex.
  destruct (Z.eqb_spec n 0); [contradiction|].
  destruct order as [|x rest]; [contradiction|].
  reflexivity.
Qed.

Lemma next_unshuffled_eq c n order rep :
  n ≠ 0 ->
  getNextTrackIndex c n false order rep =
    Some (if c + 1 <? n then c + 1 else if is_all rep then 0 else -1).
Proof.
  intros Hn. unfold getNextTrackIndex.
  destruct (Z.eqb_spec n 0); [contradiction|]. simpl.
  destruct (c + 1 <? n); [reflexivity|]. by destruct (is_all rep).
Qed.

(** C1: [next_index] by cases.  An empty playlist has no next track; in
    the shuffled case with a non-empty order the result is the element one
    position after the current index's position in the order, the first
    element when that position is past the end and the mode is repeat-all,
    and [-1] otherwise; in the unshuffled case it is [current + 1] when
    that is below the length, [0] under repeat-all, and [-1] otherwise. *)
Theorem next_index_cases (current len : Z) (order : list Z)
    (repeat : RepeatMode) :
  (len = 0 ->
   forall shuffled,
     getNextTrackIndex current len shuffled order repeat = Some (-1)) /\
  (len ≠ 0 -> order ≠ [] ->
   exists pos,
     first_position current order pos /\
     ((pos + 1 < js_length order /\
       exists x, order !! (Z.to_nat (pos + 1)) = Some x /\
         getNextTrackIndex current len true order repeat = Some x) \/
      (js_length order <= pos + 1 /\ repeat = RepeatAll /\
       exists x, order !! 0%nat = Some x /\
         getNextTrackIndex current len true order repeat = Some x) \/
      (js_length order <= pos + 1 /\ repeat ≠ RepeatAll /\
       getNextTrackIndex current len true order repeat = Some (-1)))) /\
  (len ≠ 0 ->
   (current + 1 < len ->
    getNextTrackIndex current len false order repeat
      = Some (current + 1)) /\
   (len <= current + 1 -> repeat = RepeatAll ->
    getNextTrackIndex current len false order repeat = Some 0) /\
   (len <= current + 1 -> repeat ≠ RepeatAll ->
    getNextTrackIndex current len false order repeat = Some (-1))).
Proof.
  split; [|split].
  - intros -> shuffled. reflexivity.
  - intros Hn Ho.
    exists (findIndex (fun idx => idx =? current) order).
    pose proof (findIndex_first_position current order) as Hpos.
    pose proof (first_position_range _ _ _ Hpos) as Hr.
    split; [assumption|].
    rewrite next_shuffled_eq by assumption. cbv zeta.
    destruct (Z.ltb_spec (findIndex (fun idx => idx =? current) order + 1)
                (js_length order)) as [Hlt|Hge].
    + left. split; [assumption|].
      unfold js_index.
      destruct (Z.ltb_spec (findIndex (fun idx => idx =? current) order + 1) 0);
        [lia|].
      destruct (lookup_lt_is_Some_2 order
                  (Z.to_nat (findIndex (fun idx => idx =? current) order + 1)))
        as [x Hx]; [unfold js_length in Hlt; lia|].
      exists x. by rewrite Hx.
    + right. destruct order as [|x rest]; [contradiction|].
      destruct repeat; simpl.
      * right. repeat split; [assumption | congruence].
      * right. repeat split; [assumption | congruence].
      * left. split; [assumption|]. split; [reflexivity|]. by exists x.
  - intros Hn. rewrite next_unshuffled_eq by assumption.
    repeat split.
    + intros H. destruct (Z.ltb_spec (current + 1) len); [reflexivity|lia].
    + intros H ->. destruct (Z.ltb_spec (current + 1) len); [lia|reflexivity].
    + intros H Hr. destruct (Z.ltb_spec (current + 1) len); [lia|].
      destruct repeat; [reflexivity | reflexivity | contradiction].
Qed.

Lemma next_index_cases_witness :
  getNextTrackIndex 1 0 true [2; 1; 0] RepeatNone = Some (-1) /\
  getNextTrackIndex 1 3 true [2; 1; 0] RepeatNone = Some 0 /\
  getNextTrackIndex 0 3 true [2; 1; 0] RepeatAll = Some 2 /\
  getNextTrackIndex 0 3 true [2; 1; 0] RepeatNone = Some (-1) /\
  getNextTrackIndex 1 3 false [] RepeatNone = Some 2 /\
  getNextTrackIndex 2 3 false [] RepeatAll = Some 0 /\
  getNextTrackIndex 2 3 false [] RepeatOne = Some (-1).
Proof.
  destruct (next_index_cases 1 0 [2; 1; 0] RepeatNone) as (H0 & _).
  destruct (next_index_cases 1 3 [] RepeatNone) as (_ & _ & H1).
  destruct (next_index_cases 2 3 [] RepeatAll) as (_ & _ & H2).
  destruct (next_index_cases 2 3 [] RepeatOne) as (_ & _ & H3).
  split; [apply H0; reflexivity|].
  split; [reflexivity|]. split; [reflexivity|]. split; [reflexivity|].
  split; [apply H1; lia|].
  split; [apply H2; [lia | lia | reflexivity]|].
  apply H3; [lia | lia | discriminate].
Defined.

(** C9 as stated fails on an empty playlist: the length test comes first,
    also when a stale shuffle order is still non-empty. *)
Lemma next_index_absent_current_empty_playlist :
  [1] ≠ @nil Z /\ (0 ∉ [1]) /\
  js_index [1] 0 = Some 1 /\
  getNextTrackIndex 0 0 true [1] RepeatAll = Some (-1).
Proof.
  repeat split; [discriminate|].
  intros H. apply list_elem_of_singleton in H. discriminate.
Qed.

(** C9, amended: with a non-empty playlist, shuffle on, a non-empty order
    and a current index that does not occur in it, [next_index] is the
    first element of the order, whatever the repeat mode. *)
Theorem next_index_absent_current (current len first : Z)
    (rest : list Z) (repeat : RepeatMode) :
  len ≠ 0 ->
  current ∉ first :: rest ->
  findIndex (fun idx => idx =? current) (first :: rest) = -1 /\
  getNextTrackIndex current len true (first :: rest) repeat = Some first.
Proof.
  intros Hn Hc.
  assert (findIndex (fun idx => idx =? current) (first :: rest) = -1) as E.
  { apply findIndex_from_absent. by apply eqb_false_not_in. }
  split; [assumption|].
  rewrite next_shuffled_eq by (assumption || discriminate).
  cbv zeta. rewrite E. unfold js_length. simpl length.
  destruct (Z.ltb_spec (-1 + 1) (Z.of_nat (S (Datatypes.length rest))));
    [reflexivity | lia].
Qed.

Lemma next_index_absent_current_witness :
  getNextTrackIndex 2 5 true [4; 0; 3; 1] RepeatNone = Some 4.
Proof.
  apply (next_index_absent_current 2 5 4 [0; 3; 1] RepeatNone).
  - discriminate.
  - intros H. repeat (apply elem_of_cons in H as [H|H]; [discriminate|]).
    by apply not_elem_of_nil in H.
Defined.

Lemma previous_shuffled_eq c n order :
  n ≠ 0 -> order ≠ [] ->
  getPreviousTrackIndex c n true order =
    let pos := findIndex (fun idx => idx =? c) order in
    if 0 <=? pos - 1 then js_index order (pos - 1)
    else js_index order (js_length order - 1).
Proof.
  intros Hn Ho. unfold getPreviousTrackIndex.
  destruct (Z.eqb_spec n 0); [contradiction|].
  destruct order as [|x rest]; [contradiction|].
  reflexivity.
Qed.

Lemma previous_unshuffled_eq c n sh order :
  n ≠ 0 -> sh = false \/ order = [] ->
  getPreviousTrackIndex c n sh order =
    Some (if 0 <=? c - 1 then c - 1 else n - 1).
Proof.
  intros Hn Hs. unfold getPreviousTrackIndex.
  destruct (Z.eqb_spec n 0); [contradiction|].
  assert (sh && (0 <? js_length order) = false) as ->.
  { destruct Hs as [->| ->]; [reflexivity | by rewrite andb_false_r]. }
  by destruct (0 <=? c - 1).
Qed.

Lemma js_index_elem_of {A} (arr : list A) k x :
  js_index arr k = Some x -> x ∈ arr.
Proof.
  unfold js_index. destruct (k <? 0); [discriminate|].
  apply list_elem_of_lookup_2.
Qed.

(** [getPreviousTrackIndex] always returns a number on a non-empty
    playlist, and in the shuffled branch that number is in the order. *)
Lemma previous_index_defined c n sh order :
  n ≠ 0 ->
  exists k, getPreviousTrackIndex c n sh order = Some k /\
    (k ∈ order \/ k = c - 1 /\ 0 <= k \/ k = n - 1).
Proof.
  intros Hn.
  destruct sh; [destruct order as [|x rest] eqn:Ho|].
  - rewrite previous_unshuffled_eq by auto.
    destruct (Z.leb_spec 0 (c - 1)); eexists; split; eauto.
  - rewrite <- Ho. assert (order ≠ []) as Hne by (subst; discriminate).
    rewrite previous_shuffled_eq by assumption. cbv zeta.
    pose proof (findIndex_range (fun idx => idx =? c) order) as Hr.
    destruct (Z.leb_spec 0 (findIndex (fun idx => idx =? c) order - 1)).
    + destruct (js_index_in_range order
                  (findIndex (fun idx => idx =? c) order - 1)) as [k Hk];
        [lia|].
      exists k. split; [assumption|]. left. by eapply js_index_elem_of.
    + destruct (js_index_in_range order (js_length order - 1)) as [k Hk].
      { unfold js_length. subst order. simpl. lia. }
      exists k. split; [assumption|]. left. by eapply js_index_elem_of.
  - rewrite previous_unshuffled_eq by auto.
    destruct (Z.leb_spec 0 (c - 1)); eexists; split; eauto.
Qed.

(** C3: on a playlist of length [N >= 1], [previous_index] from index 0
    is [N - 1] when not shuffled; when shuffled and the current index is
    first in the order or absent from it, it is the last element of the
    order; the result is never [-1] (the order holding indices, which are
    not negative); and the repeat mode plays no part. *)
Theorem previous_index_wraps (s : AudioState) :
  1 <= js_length (playlist s) ->
  (isShuffled s = false -> currentIndex s = 0 ->
   previous_index_of s = Some (js_length (playlist s) - 1)) /\
  (isShuffled s = true -> shuffledIndices s ≠ [] ->
   currentIndex s ∉ shuffledIndices s \/
     shuffledIndices s !! 0%nat = Some (currentIndex s) ->
   is_Some (last (shuffledIndices s)) /\
   previous_index_of s = last (shuffledIndices s)) /\
  (Forall (fun idx => 0 <= idx) (shuffledIndices s) ->
   exists k, previous_index_of s = Some k /\ 0 <= k /\ k ≠ -1) /\
  (forall mode, previous_index_of (with_repeatMode mode s)
                = previous_index_of s).
Proof.
  intros HN. unfold previous_index_of.
  set (n := js_length (playlist s)) in *.
  assert (n ≠ 0) as Hn by lia.
  split; [|split; [|split]].
  - intros -> ->. rewrite previous_unshuffled_eq by auto. reflexivity.
  - intros -> Hne Hpos.
    assert (findIndex (fun idx => idx =? currentIndex s) (shuffledIndices s)
            <= 0) as Hle.
    { destruct Hpos as [Hout|Hhd].
      - unfold findIndex. rewrite findIndex_from_absent; [lia|].
        by apply eqb_false_not_in.
      - destruct (shuffledIndices s) as [|x rest]; [contradiction|].
        simpl in Hhd. injection Hhd as ->.
        unfold findIndex. simpl. rewrite Z.eqb_refl. lia. }
    rewrite previous_shuffled_eq by assumption. cbv zeta.
    destruct (Z.leb_spec 0
      (findIndex (fun idx => idx =? currentIndex s) (shuffledIndices s) - 1));
      [lia|].
    rewrite last_lookup. unfold js_index, js_length.
    destruct (shuffledIndices s) as [|x rest] eqn:E; [contradiction|].
    destruct (Z.ltb_spec (Z.of_nat (length (x :: rest)) - 1) 0);
      [simpl in *; lia|].
    replace (Z.to_nat (Z.of_nat (length (x :: rest)) - 1))
      with (Nat.pred (length (x :: rest))) by (simpl; lia).
    split; [|reflexivity].
    apply lookup_lt_is_Some. simpl. lia.
  - intros Hall.
    destruct (previous_index_defined (currentIndex s) n (isShuffled s)
                (shuffledIndices s) Hn) as (k & Hk & Hcase).
    exists k. split; [assumption|].
    assert (0 <= k) as H0; [|split; [assumption | lia]].
    destruct Hcase as [Hin | [[_ H] | ->]]; [|assumption|lia].
    rewrite Forall_forall in Hall. by apply Hall.
  - intros mode. reflexivity.
Qed.

(** ** Shuffling *)

Lemma draw_range random k i :
  random_contract random -> 0 <= draw random k i <= Z.of_nat i.
Proof.
  intros Hc. destruct (Hc k) as [H0 H1]. unfold draw.
  set (n := Z.of_nat i + 1).
  assert (0 < inject_Z n)%Q as Hn.
  { change (inject_Z 0 < inject_Z n)%Q. rewrite <- Zlt_Qlt. subst n. lia. }
  split.
  - rewrite <- (Qfloor_Z 0). apply Qfloor_resp_le.
    apply Qmult_le_0_compat; [assumption | by apply Qlt_le_weak].
  - assert (Qfloor (random k * inject_Z n) < n); [|subst n; lia].
    rewrite Zlt_Qlt.
    eapply Qle_lt_trans; [apply Qfloor_le|].
    rewrite <- (Qmult_1_l (inject_Z n)) at 2.
    by apply Qmult_lt_compat_r.
Qed.

Lemma swap_in_place_Some (arr : list Z) (i j : nat) :
  (i < length arr)%nat -> (j < length arr)%nat ->
  exists arr', swap_in_place arr i j = Some arr' /\
               arr' ≡ₚ arr /\ length arr' = length arr.
Proof.
  intros Hi Hj. unfold swap_in_place.
  destruct (lookup_lt_is_Some_2 arr i Hi) as [ai Hai].
  destruct (lookup_lt_is_Some_2 arr j Hj) as [aj Haj].
  rewrite Hai, Haj. eexists. split; [reflexivity|]. split.
  - by apply Permutation_insert_swap.
  - by rewrite !length_insert.
Qed.

Lemma swap_in_place_perm (arr arr' : list Z) (i j : nat) :
  swap_in_place arr i j = Some arr' -> arr' ≡ₚ arr.
Proof.
  unfold swap_in_place.
  destruct (arr !! j) as [aj|] eqn:Hj; [|discriminate].
  destruct (arr !! i) as [ai|] eqn:Hi; [|discriminate].
  intros [= <-]. by apply Permutation_insert_swap.
Qed.

(** The loop only permutes, whatever was drawn. *)
Lemma fisher_yates_perm random i : forall k indices indices',
  fisher_yates random k i indices = Some indices' -> indices' ≡ₚ indices.
Proof.
  induction i as [|i IH]; intros k indices indices' H; simpl in H.
  - by injection H as <-.
  - destruct (draw random k (S i) <? 0); [discriminate|].
    destruct (swap_in_place indices (S i) _) as [mid|] eqn:Hs;
      [|discriminate].
    simpl in H. rewrite (IH _ _ _ H). by eapply swap_in_place_perm.
Qed.

(** With draws in [0, 1) the loop runs to its end. *)
Lemma fisher_yates_Some random i :
  random_contract random ->
  forall k indices, (i <= length indices - 1)%nat ->
    is_Some (fisher_yates random k i indices).
Proof.
  intros Hc. induction i as [|i IH]; intros k indices Hi; simpl.
  - by eexists.
  - pose proof (draw_range random k (S i) Hc) as Hr.
    destruct (Z.ltb_spec (draw random k (S i)) 0); [lia|].
    destruct (swap_in_place_Some indices (S i)
                (Z.to_nat (draw random k (S i))))
      as (mid & -> & _ & Hlen); [lia | lia |].
    simpl. apply IH. lia.
Qed.

Lemma splice1_seqZ (n c : Z) :
  0 <= c < n ->
  splice1 (array_from_length n) c = seqZ 0 c ++ seqZ (c + 1) (n - c - 1).
Proof.
  intros Hc. unfold splice1, array_from_length.
  replace n with (c + (n - c)) at 1 by lia.
  rewrite seqZ_app by lia.
  rewrite (seqZ_cons (0 + c)) by lia.
  replace (Z.to_nat c) with (length (seqZ 0 c)) by (rewrite length_seqZ; lia).
  rewrite delete_middle. repeat f_equal; lia.
Qed.

Lemma generateShuffledIndices_spec random (n c : Z) :
  random_contract random -> 0 <= c < n ->
  exists order,
    generateShuffledIndices random n c = Some order /\
    order ≡ₚ seqZ 0 c ++ seqZ (c + 1) (n - c - 1).
Proof.
  intros Hc Hcn. unfold generateShuffledIndices.
  destruct (Z.leb_spec 0 c); [|lia].
  rewrite splice1_seqZ by assumption.
  destruct (fisher_yates_Some random
              (length (seqZ 0 c ++ seqZ (c + 1) (n - c - 1)) - 1) Hc 0
              (seqZ 0 c ++ seqZ (c + 1) (n - c - 1))) as [order Ho]; [lia|].
  exists order. split; [assumption|]. by eapply fisher_yates_perm.
Qed.

Lemma all_but_one_spec (n c : Z) :
  0 <= c < n ->
  NoDup (seqZ 0 c ++ seqZ (c + 1) (n - c - 1)) /\
  (forall x, x ∈ seqZ 0 c ++ seqZ (c + 1) (n - c - 1)
             <-> 0 <= x < n /\ x ≠ c) /\
  js_length (seqZ 0 c ++ seqZ (c + 1) (n - c - 1)) = n - 1.
Proof.
  intros Hc. split; [|split].
  - apply NoDup_app. split; [apply NoDup_seqZ|]. split; [|apply NoDup_seqZ].
    intros x. rewrite !elem_of_seqZ. lia.
  - intros x. rewrite elem_of_app, !elem_of_seqZ. lia.
  - unfold js_length. rewrite length_app, !length_seqZ. lia.
Qed.

(** Whatever is drawn, a generated order holds indices of the playlist. *)
Lemma generateShuffledIndices_members random (n c : Z) order :
  generateShuffledIndices random n c = Some order ->
  Forall (fun idx => 0 <= idx < n) order.
Proof.
  unfold generateShuffledIndices. intros H.
  apply fisher_yates_perm in H. rewrite H.
  apply Forall_forall. intros x Hx.
  assert (x ∈ array_from_length n) as Hin.
  { destruct (0 <=? c); [|assumption].
    by apply list_elem_of_delete_inv in Hx. }
  apply elem_of_seqZ in Hin. lia.
Qed.

(** No action the provider dispatches puts a negative number into the
    shuffle order ([SET_SHUFFLED_INDICES] is never dispatched). *)
Lemma audioReducer_order_nonneg random s action s' :
  (forall l, action ≠ SET_SHUFFLED_INDICES l) ->
  Forall (fun idx => 0 <= idx) (shuffledIndices s) ->
  audioReducer random s action = Some s' ->
  Forall (fun idx => 0 <= idx) (shuffledIndices s').
Proof.
  intros Hact Hs Hred.
  destruct s as [pl ct tm du vo lo ps ci sh rm si]; simpl in *.
  destruct action; try (injection Hred as <-; exact Hs).
  - destruct sh; simpl in Hred.
    + injection Hred as <-. constructor.
    + destruct (generateShuffledIndices random (js_length ps) ci)
        as [order|] eqn:Hgen; [|discriminate].
      injection Hred as <-. simpl.
      apply generateShuffledIndices_members in Hgen.
      eapply Forall_impl; [exact Hgen|]. simpl. lia.
  - by destruct (Hact payload).
Qed.

(** C2: on a playlist of length [N >= 1] with current index [c] in range,
    [toggle_shuffle] from shuffle-off gives shuffle-on with an order that
    is a permutation of [{0..N-1} \ {c}] (no duplicates, exactly those
    members, length [N-1], [c] absent), every other field unchanged; a
    second [toggle_shuffle] right after gives shuffle-off with an empty
    order.  [Math.random] is assumed to answer in [0, 1). *)
Theorem toggle_shuffle_permutation (random random' : nat -> Q)
    (s : AudioState) :
  random_contract random ->
  1 <= js_length (playlist s) ->
  0 <= currentIndex s < js_length (playlist s) ->
  isShuffled s = false ->
  exists order,
    audioReducer random s TOGGLE_SHUFFLE =
      Some (mkAudioState (isPlaying s) (currentTrack s) (currentTime s)
              (duration s) (volume s) (isLoading s) (playlist s)
              (currentIndex s) true (repeatMode s) order) /\
    NoDup order /\
    (forall x, x ∈ order
               <-> 0 <= x < js_length (playlist s) /\ x ≠ currentIndex s) /\
    js_length order = js_length (playlist s) - 1 /\
    (currentIndex s ∉ order) /\
    audioReducer random'
      (mkAudioState (isPlaying s) (currentTrack s) (currentTime s)
         (duration s) (volume s) (isLoading s) (playlist s)
         (currentIndex s) true (repeatMode s) order) TOGGLE_SHUFFLE =
      Some (mkAudioState (isPlaying s) (currentTrack s) (currentTime s)
              (duration s) (volume s) (isLoading s) (playlist s)
              (currentIndex s) false (repeatMode s) []).
Proof.
  intros Hc HN Hci Hsh.
  destruct s as [pl ct tm du vo lo ps ci sh rm si]. simpl in *. subst sh.
  destruct (generateShuffledIndices_spec random (js_length ps) ci Hc Hci)
    as (order & Hgen & Hperm).
  destruct (all_but_one_spec (js_length ps) ci Hci) as (Hnd & Hmem & Hlen).
  exists order. simpl. rewrite Hgen. simpl.
  split; [reflexivity|].
  split; [by rewrite Hperm|].
  split; [intros x; by rewrite Hperm|].
  split; [unfold js_length in *; by rewrite Hperm|].
  split; [|reflexivity].
  rewrite Hperm, Hmem. lia.
Qed.

Example live_engine_played :
  playTrack half (sample_state 0) (track_of "a")
    (mkEngine (sample_state 0) None [] 1) = Some live_engine.
Proof. reflexivity. Qed.

Lemma half_contract : random_contract half.
Proof. intros k. unfold half, Qle, Qlt. simpl. lia. Qed.

Lemma toggle_shuffle_permutation_witness :
  exists order,
    audioReducer half (sample_state 2) TOGGLE_SHUFFLE =
      Some (mkAudioState false (Some (track_of "c")) 0 10 (8 # 10) false
              five_tracks 2 true RepeatNone order) /\
    js_length order = 4 /\ (2 ∉ order).
Proof.
  destruct (toggle_shuffle_permutation half half (sample_state 2))
    as (order & Hred & _ & _ & Hlen & Hout & _).
  - exact half_contract.
  - unfold js_length. simpl. lia.
  - unfold js_length. simpl. lia.
  - reflexivity.
  - exists order. split; [exact Hred|]. split; [exact Hlen | exact Hout].
Defined.

Lemma previous_index_wraps_witness :
  previous_index_of (sample_state 0) = Some 4.
Proof.
  destruct (previous_index_wraps (sample_state 0)) as (H & _).
  - unfold js_length. simpl. lia.
  - apply H; reflexivity.
Defined.

(** ** The provider *)

(** C4 as stated fails: 1.5 is stored, and handed to the live resource,
    as 1.5. *)
Lemma set_volume_keeps_out_of_range :
  exists e,
    setVolume half (3 # 2) live_engine = Some e /\
    volume (audio e) = (3 # 2)%Q /\
    ~ (volume (audio e) <= 1)%Q /\
    ~ (clamp01 (3 # 2) == volume (audio e))%Q /\
    (howl_calls <$> currentHowl e)
      = Some [CallVolume (8 # 10); CallPlay; CallVolume (3 # 2)].
Proof.
  eexists. split; [reflexivity|]. simpl.
  repeat split; unfold Qle, Qeq; simpl; lia.
Qed.

(** C4, amended: [set_volume(v)] stores [v] as the engine volume and hands
    [v] to the live resource, if there is one, without clamping; for [v]
    in [0, 1] this is the clamped value. *)
Theorem set_volume_stores_input (random : nat -> Q) (v : Q) (e : Engine) :
  setVolume random v e =
    Some (mkEngine (with_volume v (audio e))
            (call (CallVolume v) <$> currentHowl e)
            (released e) (howls_made e)) /\
  ((0 <= v)%Q -> (v <= 1)%Q -> (clamp01 v == v)%Q).
Proof.
  split.
  - unfold setVolume, dispatch. by destruct e as [[] ? ? ?].
  - intros H0 H1. unfold clamp01.
    destruct (Qle_bool v 0) eqn:E0.
    + apply Qle_bool_iff in E0. by apply Qle_antisym.
    + destruct (Qle_bool 1 v) eqn:E1; [|reflexivity].
      apply Qle_bool_iff in E1. by apply Qle_antisym.
Qed.

Lemma set_volume_stores_input_witness :
  setVolume half (1 # 4) live_engine =
    Some (mkEngine (with_volume (1 # 4) (audio live_engine))
            (call (CallVolume (1 # 4)) <$> currentHowl live_engine)
            (released live_engine) (howls_made live_engine)) /\
  (clamp01 (1 # 4) == 1 # 4)%Q.
Proof.
  destruct (set_volume_stores_input half (1 # 4) live_engine) as [H1 H2].
  split; [exact H1|].
  apply H2; unfold Qle; simpl; lia.
Defined.

(** C8 as stated fails: [seekTo] itself writes the displayed time. *)
Lemma seek_updates_current_time :
  exists e,
    seekTo half 5 live_engine = Some e /\
    currentTime (audio live_engine) = 0%Q /\
    currentTime (audio e) = 5%Q /\
    ~ (currentTime (audio e) == currentTime (audio live_engine))%Q.
Proof.
  eexists. split; [reflexivity|]. simpl.
  repeat split. unfold Qeq. simpl. lia.
Qed.

(** C8, amended: with a live session [seek(t)] hands the position to the
    resource and also sets the displayed current time to [t] itself,
    changing nothing else; without a session it does nothing.  The polling
    step sets the displayed time as well, to the resource's position. *)
Theorem seek_delegates_and_updates (random : nat -> Q) (t : Q) (e : Engine) :
  (forall h, currentHowl e = Some h ->
     seekTo random t e =
       Some (mkEngine (with_currentTime t (audio e))
               (Some (call (CallSeek t) h)) (released e) (howls_made e))) /\
  (currentHowl e = None -> seekTo random t e = Some e) /\
  (forall h timestamp position p,
     currentHowl e = Some h ->
     (250 <= timestamp - lastUpdateTime p)%Q ->
     exists p',
       updateTime random true timestamp position p e =
         Some (p', mkEngine (with_currentTime (default 0%Q position) (audio e))
                     (currentHowl e) (released e) (howls_made e))).
Proof.
  split; [|split].
  - intros h Hh. unfold seekTo, dispatch, on_howl. rewrite Hh. simpl.
    by destruct e as [[] ? ? ?].
  - intros Hh. unfold seekTo. by rewrite Hh.
  - intros h timestamp position p Hh Hdue. unfold updateTime, dispatch.
    apply Qle_bool_iff in Hdue.
    destruct e as [[] howl ? ?]. simpl in *. subst howl. rewrite Hdue.
    by eexists.
Qed.

Lemma seek_delegates_and_updates_witness :
  seekTo half 5 live_engine =
    Some (mkEngine (with_currentTime 5 (audio live_engine))
            (call (CallSeek 5) <$> currentHowl live_engine)
            (released live_engine) (howls_made live_engine)).
Proof.
  destruct (seek_delegates_and_updates half 5 live_engine) as (H & _).
  exact (H _ eq_refl).
Defined.

(** C5 as stated fails: after [playTrack], a load error reaches no
    callback; the loading flag stays set and the duration of the previous
    track (10 here) stays in the state. *)
Lemma load_error_reaches_no_callback :
  playTrack half (sample_state 0) (track_of "a")
    (mkEngine (sample_state 0) None [] 1) = Some live_engine /\
  on_event half EvLoadError live_engine = Some live_engine /\
  isLoading (audio live_engine) = true /\
  ~ (duration (audio live_engine) == 0)%Q.
Proof.
  repeat split. unfold Qeq. simpl. lia.
Qed.

(** C5, amended: [load_and_play] does not throw; it leaves the loading
    flag set, the duration as it was and the track selected.  A load error
    (or play error) then runs no callback and changes nothing.  The loaded
    event, when it comes, sets the duration to the resource's duration
    ([0] when that is missing) and the loading flag to false, and changes
    nothing else. *)
Theorem load_failure_changes_nothing (random : nat -> Q)
    (state : AudioState) (track : Track) (e : Engine) :
  exists e1,
    playTrack random state track e = Some e1 /\
    isLoading (audio e1) = true /\
    duration (audio e1) = duration (audio e) /\
    currentTrack (audio e1) = Some track /\
    is_Some (currentHowl e1) /\
    on_event random EvLoadError e1 = Some e1 /\
    on_event random EvPlayError e1 = Some e1 /\
    forall d,
      on_event random (EvLoad d) e1 =
        Some (mkEngine (with_loaded (or_zero d) (audio e1)) (currentHowl e1)
                (released e1) (howls_made e1)).
Proof.
  unfold playTrack, dispatch, on_howl.
  destruct e as [[] [h|] ? ?]; simpl;
    (eexists; split; [reflexivity|]; simpl;
     repeat split; by eauto).
Qed.

(** C10: [removeFromPlaylist(trackId)] changes the playlist and nothing
    else, neither in the reducer state nor in the playback resource; the
    new playlist is the old one without the tracks whose id is [trackId],
    the others in their old order. *)
Theorem remove_from_playlist_frame (random : nat -> Q) (trackId : string)
    (e : Engine) :
  exists e',
    removeFromPlaylist random trackId e = Some e' /\
    e' = mkEngine
           (with_playlist
              (filter (fun track => id track ≠ trackId) (playlist (audio e)))
              (audio e))
           (currentHowl e) (released e) (howls_made e) /\
    currentTrack (audio e') = currentTrack (audio e) /\
    currentIndex (audio e') = currentIndex (audio e) /\
    isPlaying (audio e') = isPlaying (audio e) /\
    volume (audio e') = volume (audio e) /\
    duration (audio e') = duration (audio e) /\
    isShuffled (audio e') = isShuffled (audio e) /\
    shuffledIndices (audio e') = shuffledIndices (audio e) /\
    repeatMode (audio e') = repeatMode (audio e) /\
    currentHowl e' = currentHowl e /\
    (forall track, track ∈ playlist (audio e')
                   <-> track ∈ playlist (audio e) /\ id track ≠ trackId) /\
    playlist (audio e') `sublist_of` playlist (audio e).
Proof.
  unfold removeFromPlaylist, dispatch.
  destruct e as [[] ? ? ?]; simpl.
  eexists. split; [reflexivity|]. simpl.
  do 10 (split; [reflexivity|]).
  split; [|apply sublist_filter].
  intros track. rewrite list_elem_of_filter. tauto.
Qed.

(** Removing the playing track leaves it selected and its resource live. *)
Example remove_playing_track :
  removeFromPlaylist half "a" live_engine =
    Some (mkEngine
            (mkAudioState false (Some (track_of "a")) 0 10 (8 # 10) true
               (track_of <$> ["b"; "c"; "d"; "e"]) 0 false RepeatNone [])
            (currentHowl live_engine) [] 2).
Proof. reflexivity. Qed.

(** ** The signal tap *)

Module TapFacts.
Import Waveform TapSpec.

Lemma short_circuit env h t :
  working_binding h t -> setupAudioAnalyser env (Some h) t = (true, t).
Proof.
  intros (Hc & Ha & Hs). unfold setupAudioAnalyser, same_howl.
  rewrite !bool_decide_eq_true_2 by assumption. reflexivity.
Qed.

Lemma connect_both_refs env t :
  connectedHowlRef (connect_both env t) = connectedHowlRef t /\
  analyserRef (connect_both env t) = analyserRef t /\
  sourceNodeRef (connect_both env t) = sourceNodeRef t.
Proof.
  unfold connect_both.
  destruct (sourceNodeRef t) eqn:Hs, (analyserRef t) eqn:Ha; auto.
  destruct (connect_analyser_throws env); auto.
  destruct (connect_destination_throws env); auto.
Qed.

Lemma tap_element_success env h el t t' :
  is_Some (analyserRef t) ->
  tap_element env h el t = (true, t') -> working_binding h t'.
Proof.
  intros Ha. unfold tap_element, working_binding.
  destruct (same_howl (connectedHowlRef t) h && is_marked el
            && bool_decide (is_Some (sourceNodeRef t))) eqn:Hfast.
  - intros [= <-].
    apply andb_prop in Hfast as [Hfast Hs].
    apply andb_prop in Hfast as [Hc _].
    apply bool_decide_eq_true in Hc, Hs. auto.
  - match goal with |- context [2 <=? ?r] => destruct (2 <=? r) end;
      [|discriminate].
    match goal with |- context [match ?o with Some _ => _ | None => _ end] =>
      destruct o as [s|] end.
    + intros [= <-]. simpl.
      match goal with |- context [connect_both env ?x] =>
        destruct (connect_both_refs env x) as (_ & -> & ->) end.
      simpl. eauto.
    + destruct (create_source_throws env); [discriminate|].
      intros [= <-]. simpl.
      match goal with |- context [connect_both env ?x] =>
        destruct (connect_both_refs env x) as (_ & -> & ->) end.
      simpl. eauto.
Qed.

(** A successful attach leaves a working binding behind. *)
Lemma attach_success_binds env h t t' :
  setupAudioAnalyser env (Some h) t = (true, t') -> working_binding h t'.
Proof.
  unfold setupAudioAnalyser.
  destruct (same_howl (connectedHowlRef t) h
            && bool_decide (is_Some (analyserRef t))
            && bool_decide (is_Some (sourceNodeRef t))) eqn:Hfast.
  - intros [= <-].
    apply andb_prop in Hfast as [Hfast Hs].
    apply andb_prop in Hfast as [Hc Ha].
    apply bool_decide_eq_true in Hc, Ha, Hs. by repeat split.
  - repeat match goal with
           | |- (false, _) = (true, _) -> _ => discriminate
           | |- context [match ?o with Some _ => _ | None => _ end] =>
               lazymatch o with
               | context [match _ with _ => _ end] => fail
               | _ => destruct o eqn:?
               end
           | |- context [if ?b then _ else _] =>
               lazymatch b with
               | context [if _ then _ else _] => fail
               | context [match _ with _ => _ end] => fail
               | _ => destruct b eqn:?
               end
           | |- context [match ?c with mkAudioCtx _ _ => _ end] =>
               destruct c as [? []]
           | |- context [match ?c with Running => _ | _ => _ end] =>
               destruct c
           end;
      try discriminate;
      try (apply tap_element_success; simpl; eauto).
Qed.

(** C6: attaching again to the session the tap is already bound to, with
    analyser and source node present, succeeds at once and leaves every
    reference and every browser object as it was: no analysis context,
    analyser or source node is created, however often it is repeated and
    whatever the browser would have answered. *)
Theorem attach_idempotent (h : positive) (t : Tap) :
  working_binding h t ->
  (forall env, setupAudioAnalyser env (Some h) t = (true, t)) /\
  (forall envs,
     attach_all envs h t = (replicate (length envs) true, t)) /\
  (forall envs,
     nodes_created (attach_all envs h t).2 = nodes_created t).
Proof.
  intros Hb.
  assert (forall envs,
            attach_all envs h t = (replicate (length envs) true, t)) as Hall.
  { induction envs as [|env rest IH]; cbn [attach_all length replicate];
      [reflexivity|].
    by rewrite short_circuit, IH. }
  split; [intros env; by apply short_circuit|].
  split; [exact Hall|].
  intros envs. by rewrite Hall.
Qed.

Lemma attach_idempotent_witness :
  setupAudioAnalyser calm (Some 1%positive) fresh_tap
    = (true, attached_tap) /\
  nodes_created attached_tap = 3%nat /\
  setupAudioAnalyser stormy (Some 1%positive) attached_tap
    = (true, attached_tap) /\
  nodes_created (attach_all [calm; stormy; calm] 1 attached_tap).2 = 3%nat.
Proof.
  assert (working_binding 1 attached_tap) as Hb.
  { repeat split; by eexists. }
  destruct (attach_idempotent 1 attached_tap Hb) as (H1 & _ & H3).
  split; [reflexivity|]. split; [reflexivity|].
  split; [apply H1|]. by rewrite H3.
Defined.

End TapFacts.

(** ** The bar renderer *)

Module BarFacts.
Import Waveform TapSpec.

Lemma hasRealAudioData_spec t : hasRealAudioData t = true <-> has_binding t.
Proof.
  unfold hasRealAudioData, has_binding.
  rewrite !andb_true_iff, !bool_decide_eq_true. tauto.
Qed.

Lemma bar_index_S i : (bar_index (S i) == bar_index i + 1)%Q.
Proof.
  unfold bar_index. rewrite Nat2Z.inj_succ, <- Z.add_1_r.
  rewrite inject_Z_plus. reflexivity.
Qed.

Lemma spacing_eq (w : Q) i :
  (bar_index (S i) * (w + barSpacing)
     - (bar_index i * (w + barSpacing) + w) == 2)%Q.
Proof. rewrite bar_index_S. unfold barSpacing. ring. Qed.

Lemma data_index_in_range (len i : nat) :
  (0 < len)%nat -> (i < barCount)%nat ->
  (i * (len / barCount) < len)%nat.
Proof.
  unfold barCount. intros Hlen Hi.
  pose proof (Nat.Div0.mul_div_le len 96).
  destruct (len / 96)%nat as [|q]; nia.
Qed.

(** A byte over 255 lies in [0, 1]. *)
Lemma normalized_range (b : Byte.byte) :
  (0 <= byte_value b / 255)%Q /\ (byte_value b / 255 <= 1)%Q.
Proof.
  unfold byte_value. pose proof (Byte.to_N_bounded b) as Hb.
  assert (0 <= Z.of_N (Byte.to_N b) <= 255) as Hz by lia.
  set (z := Z.of_N (Byte.to_N b)) in *. clearbody z. clear Hb.
  unfold Qdiv, Qle, Qmult, Qinv, inject_Z. simpl. lia.
Qed.

(** C7 as stated fails: a step that finds no canvas paints nothing, and
    schedules nothing, also while playing and with a binding. *)
Lemma step_without_canvas_paints_nothing :
  has_binding tap_without_canvas /\
  drawFrequencyBars flat silence 0 true tap_without_canvas
    = (None, tap_without_canvas).
Proof. split; [repeat split; by eexists | reflexivity]. Qed.

Section Step.

Variable Math_sin : Q -> Q.
Variable spectrum : nat -> Byte.byte.
Variable now : Q.
Variable playing : bool.

Lemma real_bars_lookup canvas d i :
  (i < barCount)%nat ->
  (real_bar canvas d <$> seq 0 barCount) !! i = Some (real_bar canvas d i).
Proof.
  intros Hi. rewrite list_lookup_fmap, lookup_seq_lt by assumption.
  reflexivity.
Qed.

Lemma synthetic_bars_lookup canvas i :
  (i < barCount)%nat ->
  (synthetic_bar Math_sin now canvas <$> seq 0 barCount) !! i
    = Some (synthetic_bar Math_sin now canvas i).
Proof.
  intros Hi. rewrite list_lookup_fmap, lookup_seq_lt by assumption.
  reflexivity.
Qed.

(** What one step paints when it has a draw target. *)
Lemma step_frame t canvas :
  canvasRef t = Some canvas -> has_2d_context canvas = true ->
  drawFrequencyBars Math_sin spectrum now playing t =
    let bg := (canvas_width canvas, canvas_height canvas) in
    let next t := if playing then request_frame t else set_frame None t in
    match dataArrayRef t with
    | Some d =>
        if hasRealAudioData t then
          (Some (mkFrame bg RealData
                   (real_bar canvas (getByteFrequencyData spectrum d)
                      <$> seq 0 barCount)),
           next (set_data (Some (getByteFrequencyData spectrum d)) t))
        else
          (Some (mkFrame bg Synthetic
                   (synthetic_bar Math_sin now canvas <$> seq 0 barCount)),
           next t)
    | None =>
        (Some (mkFrame bg Synthetic
                 (synthetic_bar Math_sin now canvas <$> seq 0 barCount)),
         next t)
    end.
Proof.
  intros Hc H2d. unfold drawFrequencyBars. rewrite Hc, H2d. simpl.
  destruct (dataArrayRef t); [destruct (hasRealAudioData t)|]; reflexivity.
Qed.

(** C7, amended: every step that has a draw target (a canvas with a 2D
    context) paints exactly 96 bars, 2 units apart.  It takes the
    real-data path exactly when analyser, data buffer and source node
    are all present, with bar height = magnitude / 255 * canvas height
    * 0.85 (a defined height whenever the buffer is not empty), and
    the synthetic path otherwise, with bar height
    = (sin(time + 0.3 i) / 2 + 1/2) * canvas height * 0.4.  While
    playing it schedules the next step. *)
Theorem step_paints_bars (t : Tap) (canvas : Canvas) :
  canvasRef t = Some canvas -> has_2d_context canvas = true ->
  exists frame t',
    drawFrequencyBars Math_sin spectrum now playing t = (Some frame, t') /\
    length (bars frame) = 96%nat /\
    (forall i, (i < 95)%nat ->
       exists b b',
         bars frame !! i = Some b /\ bars frame !! (S i) = Some b' /\
         (bar_x b' - (bar_x b + bar_width b) == 2)%Q) /\
    (path frame = RealData <-> has_binding t) /\
    (path frame = Synthetic <-> ~ has_binding t) /\
    (has_binding t ->
     forall d, dataArrayRef t = Some d ->
     forall i, (i < 96)%nat ->
       exists b,
         bars frame !! i = Some b /\
         bar_height b =
           ((fun m => byte_value m / 255 * canvas_height canvas
                      * (85 # 100))%Q
              <$> getByteFrequencyData spectrum d
                    !! (i * (length d / 96))%nat) /\
         ((0 < length d)%nat -> is_Some (bar_height b))) /\
    (~ has_binding t ->
     forall i, (i < 96)%nat ->
       exists b,
         bars frame !! i = Some b /\
         bar_height b =
           Some ((Math_sin (now * (3 # 1000) + bar_index i * (3 # 10))
                  * (1 # 2) + (1 # 2))
                 * canvas_height canvas * (4 # 10))%Q) /\
    animationFrameRef t' =
      (if playing then Some (S (frames_requested t)) else None).
Proof.
  intros Hc H2d. rewrite (step_frame t canvas Hc H2d). cbv zeta.
  pose proof (hasRealAudioData_spec t) as Hreal.
  destruct (dataArrayRef t) as [d|] eqn:Hd;
    [destruct (hasRealAudioData t) eqn:Hh|].
  - (* real data *)
    assert (has_binding t) as Hb by (by apply Hreal).
    eexists _, _. split; [reflexivity|]. cbn [bars path].
    split; [by rewrite length_fmap, length_seq|].
    split.
    { intros i Hi. eexists _, _.
      rewrite !real_bars_lookup by (unfold barCount; lia).
      split; [reflexivity|]. split; [reflexivity|].
      cbv [real_bar synthetic_bar bar_x bar_width]. apply spacing_eq. }
    split; [tauto|].
    split; [split; [discriminate | tauto]|].
    split.
    { intros _ d' [= <-] i Hi. eexists.
      rewrite real_bars_lookup by (unfold barCount; lia).
      split; [reflexivity|]. cbv [real_bar bar_height barCount].
      unfold getByteFrequencyData.
      rewrite length_fmap, length_seq, <- option_fmap_compose.
      split; [reflexivity|].
      intros Hlen. apply fmap_is_Some, lookup_lt_is_Some.
      rewrite length_fmap, length_seq.
      apply data_index_in_range; [assumption | unfold barCount; lia]. }
    split; [tauto|].
    by destruct playing.
  - (* a buffer, but no binding *)
    assert (~ has_binding t) as Hb
        by (rewrite <- Hreal; congruence).
    eexists _, _. split; [reflexivity|]. cbn [bars path].
    split; [by rewrite length_fmap, length_seq|].
    split.
    { intros i Hi. eexists _, _.
      rewrite !synthetic_bars_lookup by (unfold barCount; lia).
      split; [reflexivity|]. split; [reflexivity|].
      cbv [real_bar synthetic_bar bar_x bar_width]. apply spacing_eq. }
    split; [split; [discriminate | tauto]|].
    split; [tauto|].
    split; [tauto|].
    split.
    { intros _ i Hi. eexists.
      rewrite synthetic_bars_lookup by (unfold barCount; lia).
      split; reflexivity. }
    by destruct playing.
  - (* no buffer *)
    assert (~ has_binding t) as Hb.
    { intros (_ & [d Hd'] & _). congruence. }
    eexists _, _. split; [reflexivity|]. cbn [bars path].
    split; [by rewrite length_fmap, length_seq|].
    split.
    { intros i Hi. eexists _, _.
      rewrite !synthetic_bars_lookup by (unfold barCount; lia).
      split; [reflexivity|]. split; [reflexivity|].
      cbv [real_bar synthetic_bar bar_x bar_width]. apply spacing_eq. }
    split; [split; [discriminate | tauto]|].
    split; [tauto|].
    split; [tauto|].
    split.
    { intros _ i Hi. eexists.
      rewrite synthetic_bars_lookup by (unfold barCount; lia).
      split; reflexivity. }
    by destruct playing.
Qed.

End Step.

Lemma step_paints_bars_witness :
exists frame t',
  drawFrequencyBars flat silence 0 true attached_tap = (Some frame, t') /\
  length (bars frame) = 96%nat /\
  path frame = RealData.
Proof.
destruct (step_paints_bars flat silence 0 true attached_tap
            (mkCanvas 800 120 true) eq_refl eq_refl)
  as (frame & t' & Hrun & Hlen & _ & Hpath & _).
exists frame, t'. split; [exact Hrun|]. split; [exact Hlen|].
apply Hpath. repeat split; by eexists.
Defined.

End BarFacts.

(** * Further properties of the sequencer *)

(** With shuffle off and repeat-all, [k] steps of [next_index] from an
    index in range lead to [(current + k) mod N]: the walk visits every
    index once in [N] steps and is back at its start after [N]. *)
Theorem next_cycles_through_playlist (current len : Z) (order : list Z) :
  0 <= current < len ->
  (forall k, next_times k current len order
             = Some ((current + Z.of_nat k) mod len)) /\
  (forall target, 0 <= target < len ->
     exists k, (k < Z.to_nat len)%nat /\
               next_times k current len order = Some target) /\
  next_times (Z.to_nat len) current len order = Some current.
Proof.
  intros Hc.
  assert (forall k, next_times k current len order
                    = Some ((current + Z.of_nat k) mod len)) as Hk.
  { induction k as [|k IH].
    - simpl. rewrite Z.add_0_r, Z.mod_small by lia. reflexivity.
    - cbn [next_times]. rewrite IH. cbn [mbind option_bind].
      rewrite next_unshuffled_eq by lia. cbn [is_all]. f_equal.
      pose proof (Z.mod_pos_bound (current + Z.of_nat k) len ltac:(lia)) as Hb.
      replace (current + Z.of_nat (S k))
        with (current + Z.of_nat k + 1) by lia.
      rewrite <- (Z.add_mod_idemp_l (current + Z.of_nat k) 1 len) by lia.
      set (x := (current + Z.of_nat k) mod len) in *. clearbody x.
      destruct (Z.ltb_spec (x + 1) len).
      + rewrite Z.mod_small by lia. reflexivity.
      + replace (x + 1) with len by lia.
        by rewrite Z.mod_same by lia. }
  split; [exact Hk|]. split.
  - intros target Ht.
    exists (Z.to_nat ((target - current) mod len)).
    pose proof (Z.mod_pos_bound (target - current) len ltac:(lia)) as Hb.
    split; [lia|]. rewrite Hk. f_equal.
    rewrite Z2Nat.id by lia.
    rewrite Z.add_mod_idemp_r by lia.
    replace (current + (target - current)) with target by lia.
    apply Z.mod_small. lia.
  - rewrite Hk, Z2Nat.id by lia.
    replace (current + len) with (current + 1 * len) by lia.
    rewrite Z.mod_add by lia. f_equal. apply Z.mod_small. lia.
Qed.

Lemma next_cycles_through_playlist_witness :
  next_times 3 1 3 [] = Some 1 /\ next_times 2 1 3 [] = Some 0.
Proof.
  destruct (next_cycles_through_playlist 1 3 []) as (Hk & _ & Hback);
    [lia|].
  split; [exact Hback | exact (Hk 2%nat)].
Defined.

(** With shuffle off and repeat-all, [previous_index] undoes [next_index]
    and [next_index] undoes [previous_index], from every index in range. *)
Theorem next_previous_inverse (current len : Z) (order : list Z) :
  0 <= current < len ->
  (exists n, getNextTrackIndex current len false order RepeatAll = Some n /\
             0 <= n < len /\
             getPreviousTrackIndex n len false order = Some current) /\
  (exists p, getPreviousTrackIndex current len false order = Some p /\
             0 <= p < len /\
             getNextTrackIndex p len false order RepeatAll = Some current).
Proof.
  intros Hc. split.
  - rewrite next_unshuffled_eq by lia. cbn [is_all].
    eexists. split; [reflexivity|].
    rewrite previous_unshuffled_eq by (auto || lia).
    destruct (Z.ltb_spec (current + 1) len).
    + split; [lia|]. destruct (Z.leb_spec 0 (current + 1 - 1)); f_equal; lia.
    + split; [lia|]. destruct (Z.leb_spec 0 (0 - 1)); f_equal; lia.
  - rewrite previous_unshuffled_eq by (auto || lia).
    eexists. split; [reflexivity|].
    rewrite next_unshuffled_eq by lia. cbn [is_all].
    destruct (Z.leb_spec 0 (current - 1)).
    + split; [lia|]. destruct (Z.ltb_spec (current - 1 + 1) len); f_equal; lia.
    + split; [lia|]. destruct (Z.ltb_spec (len - 1 + 1) len); f_equal; lia.
Qed.

Lemma next_previous_inverse_witness :
  exists n, getNextTrackIndex 4 5 false [] RepeatAll = Some n /\
            0 <= n < 5 /\ getPreviousTrackIndex n 5 false [] = Some 4.
Proof.
  destruct (next_previous_inverse 4 5 []) as [H _]; [lia|]. exact H.
Defined.

Lemma findIndex_eq_first (c : Z) (pre post : list Z) :
  c ∉ pre ->
  findIndex (fun idx => idx =? c) (pre ++ c :: post) = js_length pre.
Proof.
  intros Hc. unfold findIndex.
  rewrite (findIndex_from_first _ _ 0 pre c post eq_refl).
  - lia.
  - by apply eqb_false_not_in.
  - apply Z.eqb_refl.
Qed.

Lemma js_index_middle {A} (pre post : list A) (x : A) :
  js_index (pre ++ x :: post) (js_length pre) = Some x.
Proof.
  unfold js_length. rewrite js_index_nat. by apply list_lookup_middle.
Qed.

(** In a duplicate-free shuffle order, [previous_index] undoes
    [next_index] between neighbours, and with repeat-all the two also
    agree at the ends: after the last entry comes the first, before the
    first the last. *)
Theorem shuffled_next_previous_inverse (len : Z) (order : list Z) :
  len ≠ 0 -> NoDup order ->
  (forall pre c x post repeat,
     order = pre ++ c :: x :: post ->
     getNextTrackIndex c len true order repeat = Some x /\
     getPreviousTrackIndex x len true order = Some c) /\
  (forall first rest final,
     order = first :: rest -> last order = Some final ->
     getNextTrackIndex final len true order RepeatAll = Some first /\
     getPreviousTrackIndex first len true order = Some final).
Proof.
  intros Hlen Hnd. split.
  - intros pre c x post repeat ->.
    apply NoDup_app in Hnd as (_ & Hpre & Hrest).
    apply NoDup_cons in Hrest as (Hcx & _).
    assert (c ∉ pre) as Hc by (intros H; apply (Hpre c H); left).
    assert (x ∉ pre ++ [c]) as Hx.
    { apply not_elem_of_app. split.
      - intros H. apply (Hpre x H). right. left.
      - intros H. apply list_elem_of_singleton in H. subst x.
        apply Hcx. left. }
    split.
    + rewrite next_shuffled_eq by (assumption || by destruct pre).
      cbv zeta. rewrite findIndex_eq_first by assumption.
      unfold js_length at 2. rewrite length_app. cbn [length].
      destruct (Z.ltb_spec (js_length pre + 1)
                  (Z.of_nat (length pre + S (S (length post)))));
        [|unfold js_length in *; lia].
      replace (pre ++ c :: x :: post) with ((pre ++ [c]) ++ x :: post)
        by (by rewrite <- app_assoc).
      replace (js_length pre + 1) with (js_length (pre ++ [c]))
        by (unfold js_length; rewrite length_app; simpl; lia).
      apply js_index_middle.
    + rewrite previous_shuffled_eq by (assumption || by destruct pre).
      cbv zeta.
      replace (pre ++ c :: x :: post) with ((pre ++ [c]) ++ x :: post)
        by (by rewrite <- app_assoc).
      rewrite findIndex_eq_first by assumption.
      replace (js_length (pre ++ [c]) - 1) with (js_length pre)
        by (unfold js_length; rewrite length_app; simpl; lia).
      destruct (Z.leb_spec 0 (js_length pre)); [|unfold js_length in *; lia].
      rewrite <- app_assoc. apply js_index_middle.
  - intros first rest final -> Hlast.
    destruct (last_Some (first :: rest) final) as [[init Hinit] _];
      [assumption|].
    assert (final ∉ init) as Hf.
    { rewrite Hinit in Hnd. apply NoDup_app in Hnd as (_ & Hd & _).
      intros H. apply (Hd final H). left. }
    split.
    + rewrite next_shuffled_eq by (assumption || discriminate).
      cbv zeta. rewrite Hinit at 1.
      rewrite findIndex_eq_first by assumption.
      destruct (Z.ltb_spec (js_length init + 1) (js_length (first :: rest))).
      { rewrite Hinit in H. unfold js_length in H.
        rewrite length_app in H. simpl in H. lia. }
      reflexivity.
    + rewrite previous_shuffled_eq by (assumption || discriminate).
      cbv zeta. unfold findIndex. cbn [findIndex_from].
      rewrite Z.eqb_refl. cbn [Z.sub Z.opp Z.add Z.leb Z.compare].
      rewrite Hinit.
      replace (js_length (init ++ [final]) - 1) with (js_length init)
        by (unfold js_length; rewrite length_app; simpl; lia).
      apply js_index_middle.
Qed.

Lemma shuffled_next_previous_inverse_witness :
  getNextTrackIndex 0 5 true [4; 0; 3; 1] RepeatNone = Some 3 /\
  getPreviousTrackIndex 3 5 true [4; 0; 3; 1] = Some 0.
Proof.
  destruct (shuffled_next_previous_inverse 5 [4; 0; 3; 1]) as [H _].
  - discriminate.
  - repeat (apply NoDup_cons; split;
            [intros H; repeat (apply elem_of_cons in H as [H|H];
                               [discriminate|]);
             by apply not_elem_of_nil in H|]).
    apply NoDup_nil. exact I.
  - exact (H [4] 0 3 [1] RepeatNone eq_refl).
Defined.

(** * Further properties of the provider *)

(** [playTrack] always returns: it selects the track, sets the loading
    flag and leaves the playlist alone. *)
Lemma playTrack_Some random state track e :
  exists e',
    playTrack random state track e = Some e' /\
    currentTrack (audio e') = Some track /\
    isLoading (audio e') = true /\
    playlist (audio e') = playlist (audio e) /\
    isPlaying (audio e') = isPlaying (audio e) /\
    currentIndex (audio e')
      = findIndex (fun t => bool_decide (id t = id track)) (playlist state).
Proof.
  unfold playTrack, dispatch, on_howl.
  destruct e as [[] [h|] ? ?]; simpl;
    (eexists; split; [reflexivity|]; simpl; by repeat split).
Qed.

Lemma next_unshuffled_eq' c n sh order rep :
  n ≠ 0 -> sh = false \/ order = [] ->
  getNextTrackIndex c n sh order rep =
    Some (if c + 1 <? n then c + 1 else if is_all rep then 0 else -1).
Proof.
  intros Hn Hs. unfold getNextTrackIndex.
  destruct (Z.eqb_spec n 0); [contradiction|].
  assert (sh && (0 <? js_length order) = false) as ->.
  { destruct Hs as [->| ->]; [reflexivity | by rewrite andb_false_r]. }
  destruct (c + 1 <? n); [reflexivity|]. by destruct (is_all rep).
Qed.

Lemma next_index_valid (s : AudioState) :
  indices_valid s ->
  exists k, next_index_of s = Some k /\
            (k = -1 \/ 0 <= k < js_length (playlist s)).
Proof.
  intros [Hord Hcur]. unfold next_index_of.
  set (n := js_length (playlist s)) in *.
  assert (0 <= n) as Hn0 by (unfold n, js_length; lia).
  destruct (decide (n = 0)) as [Hn|Hn].
  { exists (-1). unfold getNextTrackIndex. rewrite Hn. simpl. auto. }
  destruct (isShuffled s); [destruct (shuffledIndices s) as [|x rest] eqn:Ho|].
  - rewrite next_unshuffled_eq' by auto.
    eexists. split; [reflexivity|].
    destruct (Z.ltb_spec (currentIndex s + 1) n); [lia|].
    destruct (is_all (repeatMode s)); lia.
  - rewrite <- Ho in *.
    assert (shuffledIndices s ≠ []) as Hne by (rewrite Ho; discriminate).
    rewrite next_shuffled_eq by assumption. cbv zeta.
    pose proof (findIndex_range (fun idx => idx =? currentIndex s)
                  (shuffledIndices s)) as Hr.
    rewrite Forall_forall in Hord.
    destruct (Z.ltb_spec
      (findIndex (fun idx => idx =? currentIndex s) (shuffledIndices s) + 1)
      (js_length (shuffledIndices s))).
    + destruct (js_index_in_range (shuffledIndices s)
        (findIndex (fun idx => idx =? currentIndex s) (shuffledIndices s) + 1))
        as [k Hk]; [lia|].
      exists k. split; [assumption|]. right.
      apply Hord. by eapply js_index_elem_of.
    + destruct (is_all (repeatMode s)); [|by exists (-1); auto].
      destruct (js_index_in_range (shuffledIndices s) 0) as [k Hk].
      { rewrite Ho. unfold js_length. simpl. lia. }
      exists k. split; [assumption|]. right.
      apply Hord. by eapply js_index_elem_of.
  - rewrite next_unshuffled_eq' by auto.
    eexists. split; [reflexivity|].
    destruct (Z.ltb_spec (currentIndex s + 1) n); [lia|].
    destruct (is_all (repeatMode s)); lia.
Qed.

(** When the shuffle order holds indices of the playlist and the current
    index is [-1] or more, [nextTrack] never raises: it either does nothing
    (no next track) or starts the track at the computed index of the
    playlist. *)
Theorem next_track_safe (random : nat -> Q) (e : Engine) :
  indices_valid (audio e) ->
  exists k,
    next_index_of (audio e) = Some k /\
    ((k = -1 /\ nextTrack random e = Some e) \/
     (0 <= k < js_length (playlist (audio e)) /\
      exists track e',
        playlist (audio e) !! (Z.to_nat k) = Some track /\
        nextTrack random e = Some e' /\
        currentTrack (audio e') = Some track /\
        isLoading (audio e') = true /\
        playlist (audio e') = playlist (audio e))).
Proof.
  intros Hv.
  destruct (next_index_valid (audio e) Hv) as (k & Hk & Hrange).
  exists k. split; [assumption|]. unfold nextTrack. rewrite Hk.
  destruct Hrange as [->|Hrange]; [left; by split|].
  right. split; [assumption|].
  assert (is_minus_one (Some k) = false) as ->.
  { destruct k as [|p|p]; try reflexivity. lia. }
  unfold playTrack_at. cbn [mbind option_bind].
  unfold js_index. destruct (Z.ltb_spec k 0); [lia|].
  destruct (lookup_lt_is_Some_2 (playlist (audio e)) (Z.to_nat k))
    as [track Ht]; [unfold js_length in Hrange; lia|].
  rewrite Ht. cbn [mbind option_bind].
  destruct (playTrack_Some random (audio e) track e)
    as (e' & He' & Hct & Hl & Hp & _).
  exists track, e'. by repeat split.
Qed.

Lemma next_track_safe_witness :
  exists e',
    nextTrack half live_engine = Some e' /\
    currentTrack (audio e') = Some (track_of "b").
Proof.
  destruct (next_track_safe half live_engine)
    as (k & Hk & [[-> _]|(_ & track & e' & Ht & Hn & Hc & _)]).
  - split; [constructor | simpl; lia].
  - discriminate Hk.
  - injection Hk as <-. injection Ht as <-.
    exists e'. by split.
Defined.

Lemma playTrack_at_outside random state k e :
  k < 0 \/ js_length (playlist state) <= k ->
  playTrack_at random state (Some k) e = None.
Proof.
  intros Hk. unfold playTrack_at, js_index. cbn [mbind option_bind].
  destruct (Z.ltb_spec k 0); [reflexivity|].
  rewrite lookup_ge_None_2; [reflexivity|]. unfold js_length in Hk. lia.
Qed.



(** Nor is the current index adjusted.  With shuffle off, when the current
    index lies more than one past the end of the playlist,
    [previousTrack] reads a track that is not there and raises. *)
Theorem previous_track_stale_index_raises (random : nat -> Q) (e : Engine) :
  isShuffled (audio e) = false ->
  playlist (audio e) ≠ [] ->
  js_length (playlist (audio e)) < currentIndex (audio e) ->
  previous_index_of (audio e) = Some (currentIndex (audio e) - 1) /\
  previousTrack random e = None.
Proof.
  intros Hsh Hpl Hc.
  assert (js_length (playlist (audio e)) ≠ 0) as Hn.
  { unfold js_length. destruct (playlist (audio e)); [contradiction|].
    simpl. lia. }
  assert (0 <= js_length (playlist (audio e))) as Hn0
      by (unfold js_length; lia).
  assert (previous_index_of (audio e) = Some (currentIndex (audio e) - 1))
    as Hk.
  { unfold previous_index_of.
    rewrite previous_unshuffled_eq by auto.
    destruct (Z.leb_spec 0 (currentIndex (audio e) - 1)); [reflexivity|lia]. }
  split; [assumption|].
  unfold previousTrack. rewrite Hk.
  assert (is_minus_one (Some (currentIndex (audio e) - 1)) = false) as ->.
  { destruct (currentIndex (audio e) - 1) as [|p|p] eqn:E;
      try reflexivity. lia. }
  apply playTrack_at_outside. lia.
Qed.

Lemma previous_track_stale_index_raises_witness :
  exists e1 e2 e3,
    removeFromPlaylist half "a" (idle_engine 4) = Some e1 /\
    removeFromPlaylist half "b" e1 = Some e2 /\
    removeFromPlaylist half "c" e2 = Some e3 /\
    previousTrack half e3 = None.
Proof.
  eexists _, _, _. split; [reflexivity|]. split; [reflexivity|].
  split; [reflexivity|].
  apply previous_track_stale_index_raises.
  - reflexivity.
  - discriminate.
  - unfold js_length. simpl. lia.
Defined.

(** * Further properties of shuffling *)

Lemma splice1_past_end {A} (arr : list A) (start : Z) :
  js_length arr <= start -> splice1 arr start = arr.
Proof.
  unfold splice1, js_length. intros H.
  rewrite delete_take_drop, take_ge, drop_ge by lia.
  apply app_nil_r.
Qed.

(** When no track of the playlist is selected (the index is negative, or
    stale and past the end), turning shuffle on orders all [N] indices:
    nothing is left out. *)
Theorem shuffle_without_selection (random : nat -> Q) (len current : Z) :
  random_contract random ->
  current < 0 \/ len <= current ->
  exists order,
    generateShuffledIndices random len current = Some order /\
    order ≡ₚ seqZ 0 len /\
    (forall idx, idx ∈ order <-> 0 <= idx < len).
Proof.
  intros Hc Hcur.
  assert (generateShuffledIndices random len current
          = fisher_yates random 0 (length (seqZ 0 len) - 1) (seqZ 0 len))
    as ->.
  { unfold generateShuffledIndices, array_from_length.
    destruct (Z.leb_spec 0 current); [|reflexivity].
    rewrite splice1_past_end; [reflexivity|].
    unfold js_length. rewrite length_seqZ. lia. }
  destruct (fisher_yates_Some random (length (seqZ 0 len) - 1) Hc 0
              (seqZ 0 len)) as [order Ho]; [lia|].
  exists order. split; [assumption|].
  apply fisher_yates_perm in Ho. split; [assumption|].
  intros idx. rewrite Ho, elem_of_seqZ. lia.
Qed.

Lemma shuffle_without_selection_witness :
  exists order,
    generateShuffledIndices half 5 (-1) = Some order /\
    order ≡ₚ seqZ 0 5.
Proof.
  destruct (shuffle_without_selection half 5 (-1) half_contract)
    as (order & Ho & Hp & _); [lia|].
  exists order. by split.
Defined.

Lemma unit_fraction_range (j n : Z) :
  0 <= j < n -> (0 <= unit_fraction j n)%Q /\ (unit_fraction j n < 1)%Q.
Proof.
  intros Hj. unfold unit_fraction.
  assert (0 < inject_Z n)%Q as Hn.
  { change (inject_Z 0 < inject_Z n)%Q. rewrite <- Zlt_Qlt. lia. }
  split.
  - apply Qle_shift_div_l; [assumption|]. rewrite Qmult_0_l.
    change (inject_Z 0 <= inject_Z j)%Q. rewrite <- Zle_Qle. lia.
  - apply Qlt_shift_div_r; [assumption|]. rewrite Qmult_1_l.
    rewrite <- Zlt_Qlt. lia.
Qed.

Lemma draw_of_fraction random (k i : nat) (j : Z) :
  random k = unit_fraction j (Z.of_nat i + 1) ->
  draw random k i = j.
Proof.
  intros Hr. unfold draw. rewrite Hr. unfold unit_fraction.
  assert (inject_Z j / inject_Z (Z.of_nat i + 1)
          * inject_Z (Z.of_nat i + 1) == inject_Z j)%Q as ->.
  { rewrite Qmult_comm. apply Qmult_div_r.
    change (~ inject_Z (Z.of_nat i + 1) == inject_Z 0)%Q.
    rewrite inject_Z_injective. lia. }
  apply Qfloor_Z.
Qed.

(** One pass of the loop can bring any arrangement about. *)
Lemma fisher_yates_reaches (i : nat) : forall arr target : list Z,
  arr ≡ₚ target ->
  (i <= length arr - 1)%nat ->
  drop (S i) arr = drop (S i) target ->
  exists draws : list Q,
    length draws = i /\
    Forall (fun q => (0 <= q)%Q /\ (q < 1)%Q) draws /\
    forall random k,
      (forall m, (m < i)%nat -> random (k + m)%nat = nth m draws 0%Q) ->
      fisher_yates random k i arr = Some target.
Proof.
  induction i as [|i IH]; intros arr target Hp Hi Hd.
  - exists []. split; [reflexivity|]. split; [constructor|].
    intros random k _. simpl. f_equal.
    destruct arr as [|a ar], target as [|t tr].
    + reflexivity.
    + by apply Permutation_nil_l in Hp.
    + by apply Permutation_nil_r in Hp.
    + simpl in Hd. rewrite !drop_0 in Hd. subst tr.
      change ([a] ++ ar ≡ₚ [t] ++ ar) in Hp.
      apply Permutation_app_inv_r, Permutation_singleton_inj in Hp.
      by subst.
  - pose proof (Permutation_length Hp) as Hlen.
    destruct (lookup_lt_is_Some_2 target (S i)) as [t Ht]; [lia|].
    destruct (lookup_lt_is_Some_2 arr (S i)) as [ai Hai]; [lia|].
    assert (take (S (S i)) arr ≡ₚ take (S (S i)) target) as Hpre.
    { rewrite <- (take_drop (S (S i)) arr),
              <- (take_drop (S (S i)) target), Hd in Hp.
      by apply Permutation_app_inv_r in Hp. }
    assert (t ∈ take (S (S i)) arr) as Hin.
    { rewrite Hpre. apply elem_of_take. exists (S i). split; [assumption|lia]. }
    apply elem_of_take in Hin as (j & Hj & Hjlt).
    set (arr' := <[j := ai]> (<[S i := t]> arr)).
    assert (swap_in_place arr (S i) j = Some arr') as Hswap.
    { unfold swap_in_place. by rewrite Hj, Hai. }
    assert (arr' ≡ₚ arr) as Hp' by (by apply Permutation_insert_swap).
    assert (length arr' = length arr) as Hlen'
        by (unfold arr'; by rewrite !length_insert).
    assert (arr' !! (S i) = Some t) as Ht'.
    { unfold arr'. destruct (decide (j = S i)) as [->|Hne].
      - rewrite list_lookup_insert_eq by (rewrite length_insert; lia).
        congruence.
      - rewrite list_lookup_insert_ne by assumption.
        apply list_lookup_insert_eq. lia. }
    assert (drop (S i) arr' = drop (S i) target) as Hd'.
    { rewrite (drop_S _ _ _ Ht'), (drop_S _ _ _ Ht). f_equal.
      unfold arr'. rewrite !drop_insert_lt by lia. exact Hd. }
    destruct (IH arr' target) as (draws & Hdl & Hdr & Hrun).
    { by rewrite Hp'. }
    { lia. }
    { exact Hd'. }
    exists (unit_fraction (Z.of_nat j) (Z.of_nat (S i) + 1) :: draws).
    split; [simpl; by rewrite Hdl|]. split.
    { constructor; [apply unit_fraction_range; lia | assumption]. }
    intros random k Hr. cbn [fisher_yates].
    rewrite (draw_of_fraction random k (S i) (Z.of_nat j)).
    2:{ rewrite <- (Nat.add_0_r k). rewrite (Hr 0%nat) by lia. reflexivity. }
    destruct (Z.ltb_spec (Z.of_nat j) 0); [lia|].
    rewrite Nat2Z.id, Hswap. cbn [mbind option_bind].
    apply Hrun. intros m Hm.
    replace (S k + m)%nat with (k + S m)%nat by lia.
    rewrite Hr by lia. reflexivity.
Qed.

(** Every arrangement of the other indices can come out of the shuffle:
    for each permutation of [{0..N-1} \ {c}] there are values of
    [Math.random()] in [0, 1) that make [generateShuffledIndices] return
    it. *)
Theorem shuffle_reaches_every_order (len current : Z) (target : list Z) :
  0 <= current < len ->
  target ≡ₚ seqZ 0 current ++ seqZ (current + 1) (len - current - 1) ->
  exists draws : list Q,
    random_contract (oracle_of draws) /\
    generateShuffledIndices (oracle_of draws) len current = Some target.
Proof.
  intros Hc Hp. unfold generateShuffledIndices.
  destruct (Z.leb_spec 0 current); [|lia].
  rewrite splice1_seqZ by assumption.
  set (indices := seqZ 0 current ++ seqZ (current + 1) (len - current - 1))
    in *.
  destruct (fisher_yates_reaches (length indices - 1) indices target)
    as (draws & Hlen & Hrange & Hrun).
  - by symmetry.
  - lia.
  - pose proof (Permutation_length Hp) as Hl.
    rewrite !drop_ge; [reflexivity | lia | lia].
  - exists draws. split.
    + intros k. unfold oracle_of.
      destruct (decide (k < length draws)%nat) as [Hk|Hk].
      * rewrite Forall_forall in Hrange. apply Hrange.
        apply list_elem_of_In, nth_In. exact Hk.
      * rewrite nth_overflow by lia. unfold Qle, Qlt. simpl. lia.
    + apply Hrun. intros m _. reflexivity.
Qed.

Lemma shuffle_reaches_every_order_witness :
  exists draws : list Q,
    random_contract (oracle_of draws) /\
    generateShuffledIndices (oracle_of draws) 5 2 = Some [3; 0; 4; 1].
Proof.
  apply shuffle_reaches_every_order; [lia|].
  apply (NoDup_Permutation [3; 0; 4; 1] [0; 1; 3; 4]).
  - repeat (apply NoDup_cons; split;
            [intros H; repeat (apply elem_of_cons in H as [H|H];
                               [discriminate|]);
             by apply not_elem_of_nil in H|]).
    apply NoDup_nil. exact I.
  - repeat (apply NoDup_cons; split;
            [intros H; repeat (apply elem_of_cons in H as [H|H];
                               [discriminate|]);
             by apply not_elem_of_nil in H|]).
    apply NoDup_nil. exact I.
  - intros x. rewrite !elem_of_cons, !elem_of_nil. lia.
Defined.

(** [playTrack] in one equation: the old [Howl] is unloaded and dropped
    before the new one is made. *)
Lemma playTrack_eq random state track e :
  playTrack random state track e =
    Some (mkEngine (selecting state track (audio e))
            (Some (started_howl (howls_made e) state track))
            (released e ++ unloaded (currentHowl e))
            (Pos.succ (howls_made e))).
Proof.
  unfold playTrack, dispatch, on_howl, selecting, started_howl, unloaded.
  destruct e as [[] [h|] rel made]; simpl; [reflexivity|].
  by rewrite app_nil_r.
Qed.












Lemma dispatch_playing random b e :
  dispatch random (SET_PLAYING b) e =
    Some (mkEngine (with_isPlaying b (audio e)) (currentHowl e)
                   (released e) (howls_made e)).
Proof. unfold dispatch. by destruct e as [[] ? ? ?]. Qed.








(** A volume that was set is the volume of the next session: after
    [setVolume(v)] and a render, [playTrack] hands [v] to the [Howl] it
    makes, before [play]. *)
Theorem volume_carries_over (random : nat -> Q) (v : Q) (track : Track)
    (e : Engine) :
  exists e1 e2 h,
    setVolume random v e = Some e1 /\
    playTrack random (audio e1) track e1 = Some e2 /\
    currentHowl e2 = Some h /\
    howl_calls h = [CallVolume v; CallPlay] /\
    volume (audio e2) = v.
Proof.
  unfold setVolume, dispatch. destruct e as [[] cur rel made]. simpl.
  eexists _, _, _. split; [reflexivity|].
  rewrite playTrack_eq. simpl. by repeat split.
Qed.

(** What [onend] does is decided by the render its [Howl] closed over, not
    by the state at the time of the event: with the same [Howl]s, two
    engines whose reducer states differ in any way get the same [Howl]s
    from the [end] event (or both raise). *)
Theorem ended_reads_captured_state (random : nat -> Q) (s s' : AudioState)
    (current : option Howl) (dropped : list Howl) (made : positive) :
  (sessions <$> on_event random EvEnd (mkEngine s current dropped made)) =
  (sessions <$> on_event random EvEnd (mkEngine s' current dropped made)).
Proof.
  unfold on_event. simpl. destruct current as [h|]; [|reflexivity].
  rewrite !dispatch_playing. cbn [mbind option_bind]. simpl.
  destruct (repeatMode (cb_state h));
    try (destruct (is_minus_one _); [reflexivity|];
         unfold playTrack_at;
         destruct (getNextTrackIndex _ _ _ _ _) as [k|]; [|reflexivity];
         cbn [mbind option_bind];
         destruct (js_index _ k); [|reflexivity];
         cbn [mbind option_bind]);
    by rewrite !playTrack_eq.
Qed.

Lemma ended_equation random e h :
  currentHowl e = Some h ->
  on_event random EvEnd e =
    let e1 := mkEngine (with_isPlaying false (audio e)) (currentHowl e)
                       (released e) (howls_made e) in
    match repeatMode (cb_state h) with
    | RepeatOne => playTrack random (cb_state h) (cb_track h) e1
    | _ => if is_minus_one (captured_next h) then Some e1
           else playTrack_at random (cb_state h) (captured_next h) e1
    end.
Proof.
  intros Hh. unfold on_event. rewrite Hh, dispatch_playing.
  cbn [mbind option_bind]. unfold captured_next. cbv zeta.
  destruct (repeatMode (cb_state h)); rewrite ?Hh; reflexivity.
Qed.

(** So a change made during a track does not reach the auto-advance: when
    the track ends and a next one is started, the new [Howl] gets the
    volume of the captured render, whatever [setVolume] stored since, and
    captures that same render again. *)
Theorem auto_advance_keeps_captured_volume (random : nat -> Q)
    (e : Engine) (h : Howl) (k : Z) (track : Track) :
  currentHowl e = Some h ->
  repeatMode (cb_state h) ≠ RepeatOne ->
  captured_next h = Some k ->
  js_index (playlist (cb_state h)) k = Some track ->
  exists e',
    on_event random EvEnd e = Some e' /\
    currentHowl e' = Some (started_howl (howls_made e) (cb_state h) track) /\
    (howl_calls <$> currentHowl e')
      = Some [CallVolume (volume (cb_state h)); CallPlay] /\
    (cb_state <$> currentHowl e') = Some (cb_state h) /\
    volume (audio e') = volume (audio e) /\
    currentTrack (audio e') = Some track /\
    released e' = released e ++ [call CallUnload h].
Proof.
  intros Hh Hrep Hk Ht. rewrite (ended_equation random e h Hh). cbv zeta.
  assert (is_minus_one (captured_next h) = false) as Hm.
  { rewrite Hk. destruct k as [|p|p]; try reflexivity.
    unfold js_index in Ht. by destruct (Z.ltb_spec (Z.neg p) 0); [|lia]. }
  assert (playTrack_at random (cb_state h) (captured_next h)
            (mkEngine (with_isPlaying false (audio e)) (currentHowl e)
               (released e) (howls_made e))
          = playTrack random (cb_state h) track
              (mkEngine (with_isPlaying false (audio e)) (currentHowl e)
                 (released e) (howls_made e))) as Hat.
  { unfold playTrack_at. rewrite Hk. cbn [mbind option_bind].
    rewrite Ht. reflexivity. }
  assert (on_event_result :
    match repeatMode (cb_state h) with
    | RepeatOne => playTrack random (cb_state h) (cb_track h)
                     (mkEngine (with_isPlaying false (audio e))
                        (currentHowl e) (released e) (howls_made e))
    | _ => if is_minus_one (captured_next h)
           then Some (mkEngine (with_isPlaying false (audio e))
                        (currentHowl e) (released e) (howls_made e))
           else playTrack_at random (cb_state h) (captured_next h)
                  (mkEngine (with_isPlaying false (audio e))
                     (currentHowl e) (released e) (howls_made e))
    end = playTrack random (cb_state h) track
            (mkEngine (with_isPlaying false (audio e)) (currentHowl e)
               (released e) (howls_made e))).
  { rewrite Hm, Hat. by destruct (repeatMode (cb_state h)). }
  rewrite on_event_result, playTrack_eq. simpl.
  eexists. split; [reflexivity|]. simpl. rewrite Hh. by repeat split.
Qed.

Lemma auto_advance_keeps_captured_volume_witness :
  exists e1 e2,
    setVolume half (1 # 5) live_engine = Some e1 /\
    on_event half EvEnd e1 = Some e2 /\
    volume (audio e2) = (1 # 5)%Q /\
    (howl_calls <$> currentHowl e2) = Some [CallVolume (8 # 10); CallPlay].
Proof.
  destruct (auto_advance_keeps_captured_volume half
              (mkEngine (with_volume (1 # 5) (audio live_engine))
                 (call (CallVolume (1 # 5)) <$> currentHowl live_engine)
                 [] 2)
              (call (CallVolume (1 # 5))
                 (mkHowl 1 ["blob:a"] true None (sample_state 0)
                    (track_of "a") [CallVolume (8 # 10); CallPlay]))
              1 (track_of "b"))
    as (e2 & Hend & _ & Hcalls & _ & Hvol & _);
    [reflexivity | discriminate | reflexivity | reflexivity |].
  eexists _, e2. split; [reflexivity|]. split; [exact Hend|].
  split; [exact Hvol | exact Hcalls].
Defined.

Lemma findIndex_track_first (x : Track) (pre post : list Track) :
  Forall (fun t => id t ≠ id x) pre ->
  findIndex (fun t => bool_decide (id t = id x)) (pre ++ x :: post)
    = js_length pre.
Proof.
  intros Hpre. unfold findIndex.
  rewrite (findIndex_from_first _ _ 0 pre x post eq_refl).
  - lia.
  - eapply Forall_impl; [exact Hpre|]. simpl. intros t Ht.
    by apply bool_decide_eq_false_2.
  - by apply bool_decide_eq_true_2.
Qed.

(** Repeat-one, as captured when the track was started: at its end the
    same track is started again in a new [Howl], the finished one being
    unloaded; the displayed time and duration are left as they were. *)
Theorem repeat_one_replays (random : nat -> Q) (e : Engine) (h : Howl) :
  currentHowl e = Some h ->
  repeatMode (cb_state h) = RepeatOne ->
  on_event random EvEnd e =
    Some (mkEngine
            (selecting (cb_state h) (cb_track h)
               (with_isPlaying false (audio e)))
            (Some (started_howl (howls_made e) (cb_state h) (cb_track h)))
            (released e ++ [call CallUnload h])
            (Pos.succ (howls_made e))) /\
  currentTime (selecting (cb_state h) (cb_track h)
                 (with_isPlaying false (audio e))) = currentTime (audio e) /\
  duration (selecting (cb_state h) (cb_track h)
              (with_isPlaying false (audio e))) = duration (audio e).
Proof.
  intros Hh Hrep. rewrite (ended_equation random e h Hh), Hrep. cbv zeta.
  rewrite playTrack_eq. simpl. rewrite Hh. by repeat split.
Qed.

Lemma repeat_one_replays_witness :
  exists e',
    on_event half EvEnd
      (mkEngine (sample_state 0)
         (Some (started_howl 1
                  (with_repeatMode RepeatOne (sample_state 0))
                  (track_of "a")))
         [] 2) = Some e' /\
    currentTrack (audio e') = Some (track_of "a") /\
    length (released e') = 1%nat.
Proof.
  destruct (repeat_one_replays half
              (mkEngine (sample_state 0)
                 (Some (started_howl 1
                          (with_repeatMode RepeatOne (sample_state 0))
                          (track_of "a")))
                 [] 2) _ eq_refl eq_refl) as (H & _).
  eexists. split; [exact H|]. by split.
Defined.

(** The end of the playlist, as captured: with shuffle off and repeat
    none, when the track that ended is the last of the captured playlist,
    the [end] event only clears the playing flag.  The finished [Howl]
    stays the current one: it is not unloaded. *)
Theorem last_track_halts (random : nat -> Q) (e : Engine) (h : Howl)
    (pre : list Track) :
  currentHowl e = Some h ->
  repeatMode (cb_state h) = RepeatNone ->
  isShuffled (cb_state h) = false ->
  playlist (cb_state h) = pre ++ [cb_track h] ->
  Forall (fun t => id t ≠ id (cb_track h)) pre ->
  on_event random EvEnd e =
    Some (mkEngine (with_isPlaying false (audio e)) (Some h) (released e)
                   (howls_made e)).
Proof.
  intros Hh Hrep Hsh Hpl Hpre.
  rewrite (ended_equation random e h Hh), Hrep. cbv zeta.
  assert (captured_next h = Some (-1)) as ->.
  { unfold captured_next. rewrite Hsh, Hrep, Hpl.
    rewrite findIndex_track_first by assumption.
    rewrite next_unshuffled_eq.
    - unfold js_length. rewrite length_app. simpl.
      destruct (Z.ltb_spec (Z.of_nat (length pre) + 1)
                  (Z.of_nat (length pre + 1))); [lia|reflexivity].
    - unfold js_length. rewrite length_app. simpl. lia. }
  simpl. by rewrite Hh.
Qed.

Lemma last_track_halts_witness :
  on_event half EvEnd
    (mkEngine (sample_state 4)
       (Some (started_howl 1 (sample_state 4) (track_of "e"))) [] 2)
  = Some (mkEngine (with_isPlaying false (sample_state 4))
            (Some (started_howl 1 (sample_state 4) (track_of "e"))) [] 2).
Proof.
  apply (last_track_halts half
           (mkEngine (sample_state 4)
              (Some (started_howl 1 (sample_state 4) (track_of "e"))) [] 2)
           (started_howl 1 (sample_state 4) (track_of "e"))
           (track_of <$> ["a"; "b"; "c"; "d"]));
    try reflexivity.
  repeat (apply Forall_cons; split; [discriminate|]). apply Forall_nil.
  exact I.
Defined.

Lemma playTrack_at_eq random state k track e :
  0 <= k -> playlist state !! (Z.to_nat k) = Some track ->
  playTrack_at random state (Some k) e = playTrack random state track e.
Proof.
  intros Hk Ht. unfold playTrack_at, js_index. cbn [mbind option_bind].
  destruct (Z.ltb_spec k 0); [lia|]. by rewrite Ht.
Qed.

(** The first upload.  The handler plays the first new track from the
    render it closed over, whose playlist does not have the new tracks
    yet: the track is selected with index [-1], its [end] does not advance
    to the tracks uploaded with it, and (shuffle off) [nextTrack] then
    starts the same first track again. *)
Theorem first_upload_selects_no_index (random : nat -> Q) (e : Engine)
    (first : Track) (rest : list Track) :
  playlist (audio e) = [] ->
  currentTrack (audio e) = None ->
  repeatMode (audio e) ≠ RepeatOne ->
  exists e1,
    handleFileUpload random (audio e) (first :: rest) e = Some e1 /\
    playlist (audio e1) = first :: rest /\
    currentTrack (audio e1) = Some first /\
    currentIndex (audio e1) = -1 /\
    on_event random EvEnd e1 =
      Some (mkEngine (with_isPlaying false (audio e1)) (currentHowl e1)
                     (released e1) (howls_made e1)) /\
    (isShuffled (audio e) = false ->
     exists e2, nextTrack random e1 = Some e2 /\
                currentTrack (audio e2) = Some first /\
                currentIndex (audio e2) = 0).
Proof.
  intros Hpl Hct Hrep.
  unfold handleFileUpload, addToPlaylist, dispatch.
  destruct e as [[pl ct tm du vo lo ps ci sh rm si] cur rel made].
  simpl in *. subst ps ct. rewrite playTrack_eq. simpl.
  eexists. split; [reflexivity|]. simpl.
  split; [reflexivity|]. split; [reflexivity|]. split; [reflexivity|].
  split.
  - erewrite ended_equation by reflexivity. cbv zeta. simpl.
    unfold captured_next. simpl. by destruct rm.
  - intros ->. unfold nextTrack, next_index_of.
    cbn [audio selecting currentIndex playlist isShuffled shuffledIndices
         repeatMode findIndex findIndex_from].
    rewrite next_unshuffled_eq by (unfold js_length; simpl; lia).
    replace (-1 + 1 <? js_length (first :: rest)) with true
      by (symmetry; apply Z.ltb_lt; unfold js_length; simpl; lia).
    change (-1 + 1) with 0. cbn [is_minus_one].
    rewrite (playTrack_at_eq random _ 0 first) by (lia || reflexivity).
    rewrite playTrack_eq. simpl.
    eexists. split; [reflexivity|]. simpl. split; [reflexivity|].
    unfold findIndex. simpl. by rewrite bool_decide_eq_true_2.
Qed.

Lemma first_upload_selects_no_index_witness :
  exists e1,
    handleFileUpload half initialState five_tracks initial_engine
      = Some e1 /\
    currentTrack (audio e1) = Some (track_of "a") /\
    currentIndex (audio e1) = -1.
Proof.
  destruct (first_upload_selects_no_index half initial_engine
              (track_of "a") (track_of <$> ["b"; "c"; "d"; "e"]))
    as (e1 & Hup & _ & Hct & Hci & _);
    [reflexivity | reflexivity | discriminate |].
  exists e1. split; [exact Hup|]. by split.
Defined.

(** * Further properties of the playlist *)

Lemma filter_all {A} (P : A -> Prop) `{!forall x, Decision (P x)}
    (l : list A) :
  Forall P l -> filter P l = l.
Proof.
  induction 1 as [|x l Hx _ IH]; [reflexivity|].
  by rewrite filter_cons_True, IH.
Qed.

Lemma filter_Forall {A} (P : A -> Prop) `{!forall x, Decision (P x)}
    (l : list A) :
  Forall P (filter P l).
Proof.
  apply Forall_forall. intros x Hx. by apply list_elem_of_filter in Hx as [? _].
Qed.

(** Removing by an id that no track has changes nothing; removing by any
    id leaves no track with that id, never lengthens the playlist, and a
    second removal by the same id changes nothing more. *)
Theorem remove_absent_and_twice (random : nat -> Q) (trackId : string)
    (s : AudioState) :
  (Forall (fun t => id t ≠ trackId) (playlist s) ->
   audioReducer random s (REMOVE_FROM_PLAYLIST trackId) = Some s) /\
  (exists s1,
     audioReducer random s (REMOVE_FROM_PLAYLIST trackId) = Some s1 /\
     Forall (fun t => id t ≠ trackId) (playlist s1) /\
     (length (playlist s1) <= length (playlist s))%nat /\
     audioReducer random s1 (REMOVE_FROM_PLAYLIST trackId) = Some s1).
Proof.
  destruct s as [pl ct tm du vo lo ps ci sh rm si]. simpl. split.
  - intros H. by rewrite filter_all.
  - eexists. split; [reflexivity|]. simpl.
    split; [apply filter_Forall|]. split; [apply length_filter|].
    by rewrite filter_all by apply filter_Forall.
Qed.

Lemma remove_absent_and_twice_witness :
  audioReducer half (sample_state 0) (REMOVE_FROM_PLAYLIST "zz")
    = Some (sample_state 0).
Proof.
  destruct (remove_absent_and_twice half "zz" (sample_state 0)) as [H _].
  apply H. repeat (apply Forall_cons; split; [discriminate|]).
  apply Forall_nil. exact I.
Defined.

(** Removing a track that precedes the current one shifts the playlist
    under the index, which is not adjusted: with shuffle off, [nextTrack]
    then skips the track that followed the current one and starts the one
    after it. *)
Theorem remove_before_current_skips (random : nat -> Q) (e : Engine)
    (pre mid post : list Track) (gone cur skipped started : Track) :
  playlist (audio e)
    = pre ++ gone :: mid ++ cur :: skipped :: started :: post ->
  currentIndex (audio e) = js_length pre + 1 + js_length mid ->
  isShuffled (audio e) = false ->
  Forall (fun t => id t ≠ id gone)
         (pre ++ mid ++ cur :: skipped :: started :: post) ->
  exists e1 e2,
    removeFromPlaylist random (id gone) e = Some e1 /\
    playlist (audio e1) = pre ++ mid ++ cur :: skipped :: started :: post /\
    currentIndex (audio e1) = currentIndex (audio e) /\
    nextTrack random e1 = Some e2 /\
    currentTrack (audio e2) = Some started.
Proof.
  intros Hpl Hci Hsh Hids.
  unfold removeFromPlaylist, dispatch.
  destruct e as [[pl ct tm du vo lo ps ci sh rm si] cur0 rel made].
  simpl in *. subst ps ci sh.
  assert (filter (fun track => id track ≠ id gone)
            (pre ++ gone :: mid ++ cur :: skipped :: started :: post)
          = pre ++ mid ++ cur :: skipped :: started :: post) as Hf.
  { apply Forall_app in Hids as [Hpre Hrest].
    rewrite filter_app, filter_cons_False by (intros H; by apply H).
    by rewrite !filter_all. }
  rewrite Hf. eexists _, _. split; [reflexivity|]. simpl.
  split; [reflexivity|]. split; [reflexivity|].
  unfold nextTrack, next_index_of.
  cbn [audio currentIndex playlist isShuffled shuffledIndices repeatMode].
  assert (js_length (pre ++ mid ++ cur :: skipped :: started :: post)
          = js_length pre + js_length mid + 3 + js_length post) as Hlen.
  { unfold js_length. rewrite !length_app. simpl. lia. }
  assert (0 <= js_length pre /\ 0 <= js_length mid /\ 0 <= js_length post)
    as (Hp0 & Hm0 & Hq0) by (unfold js_length; lia).
  rewrite next_unshuffled_eq by lia.
  destruct (Z.ltb_spec (js_length pre + 1 + js_length mid + 1)
              (js_length (pre ++ mid ++ cur :: skipped :: started :: post)));
    [|lia].
  assert (is_minus_one (Some (js_length pre + 1 + js_length mid + 1)) = false)
    as ->.
  { destruct (js_length pre + 1 + js_length mid + 1) eqn:E;
      try reflexivity. lia. }
  rewrite (playTrack_at_eq random _ _ started); [|lia|].
  - rewrite playTrack_eq. split; reflexivity.
  - cbn [playlist].
    replace (pre ++ mid ++ cur :: skipped :: started :: post)
      with ((pre ++ mid ++ [cur; skipped]) ++ started :: post)
      by (by rewrite <- !app_assoc).
    replace (Z.to_nat (js_length pre + 1 + js_length mid + 1))
      with (length (pre ++ mid ++ [cur; skipped]))
      by (unfold js_length; rewrite !length_app; simpl; lia).
    apply list_lookup_middle. reflexivity.
Qed.

Lemma remove_before_current_skips_witness :
  exists e1 e2,
    removeFromPlaylist half "a" (idle_engine 1) = Some e1 /\
    nextTrack half e1 = Some e2 /\
    currentTrack (audio e2) = Some (track_of "d").
Proof.
  destruct (remove_before_current_skips half (idle_engine 1) [] []
              [track_of "e"] (track_of "a") (track_of "b") (track_of "c")
              (track_of "d"))
    as (e1 & e2 & H1 & _ & _ & H2 & H3); try reflexivity.
  - repeat (apply Forall_cons; split; [discriminate|]).
    apply Forall_nil. exact I.
  - exists e1, e2. by repeat split.
Defined.

(** * Properties of the controls *)

(** Muting does not remember the volume: from any volume other than 0,
    two clicks on the mute button leave the volume at 0.8, and the
    resource is handed 0 and then 0.8. *)
Theorem unmute_restores_default (random : nat -> Q) (e : Engine) :
  ~ (volume (audio e) == 0)%Q ->
  exists e1 e2,
    toggleMute random e = Some e1 /\
    volume (audio e1) = 0%Q /\
    toggleMute random e1 = Some e2 /\
    volume (audio e2) = (8 # 10)%Q /\
    currentHowl e2 =
      (call (CallVolume (8 # 10)) ∘ call (CallVolume 0)) <$> currentHowl e.
Proof.
  intros Hv. unfold toggleMute.
  assert (Qeq_bool (volume (audio e)) 0 = false) as ->.
  { apply not_true_is_false. intros H. by apply Qeq_bool_iff in H. }
  unfold setVolume, dispatch, on_howl.
  destruct e as [[pl ct tm du vo lo ps ci sh rm si] cur rel made]. simpl.
  eexists _, _. split; [reflexivity|]. simpl.
  split; [reflexivity|]. split; [reflexivity|]. simpl.
  split; [reflexivity|]. by destruct cur.
Qed.

Lemma unmute_restores_default_witness :
  exists e1 e2,
    setVolume half (3 # 10) live_engine = Some e1 /\
    run_ops half [OpToggleMute; OpToggleMute] e1 = Some e2 /\
    volume (audio e2) = (8 # 10)%Q.
Proof.
  destruct (unmute_restores_default half
              (mkEngine (with_volume (3 # 10) (audio live_engine))
                 (call (CallVolume (3 # 10)) <$> currentHowl live_engine)
                 [] 2))
    as (e1 & e2 & H1 & _ & H2 & Hv & _).
  - unfold Qeq. simpl. lia.
  - exists (mkEngine (with_volume (3 # 10) (audio live_engine))
              (call (CallVolume (3 # 10)) <$> currentHowl live_engine)
              [] 2), e2.
    split; [reflexivity|]. split; [|exact Hv].
    cbn [run_ops run_op]. rewrite H1. cbn [mbind option_bind].
    rewrite H2. reflexivity.
Defined.

(** A click on the progress bar seeks inside the track: with a track
    selected, a known duration and the pointer within the bar, the time
    handed to [seekTo] lies between 0 and the duration.  Without a track,
    or with duration 0, the click does nothing. *)
Theorem progress_click_seeks_in_range (random : nat -> Q)
    (clientX rect_left rect_width : Q) (e : Engine) :
  (currentTrack (audio e) = None \/ (duration (audio e) == 0)%Q ->
   handleProgressClick random clientX rect_left rect_width e = Some e) /\
  (is_Some (currentTrack (audio e)) ->
   (0 < duration (audio e))%Q -> (0 < rect_width)%Q ->
   (rect_left <= clientX)%Q -> (clientX <= rect_left + rect_width)%Q ->
   exists t,
     handleProgressClick random clientX rect_left rect_width e
       = seekTo random t e /\
     (0 <= t)%Q /\ (t <= duration (audio e))%Q).
Proof.
  unfold handleProgressClick. split.
  - intros [-> | Hd]; [reflexivity|].
    destruct (currentTrack (audio e)); [|reflexivity].
    apply Qeq_bool_iff in Hd. by rewrite Hd.
  - intros [track ->] Hd Hw Hl Hr.
    assert (Qeq_bool (duration (audio e)) 0 = false) as ->.
    { apply not_true_is_false. intros H. apply Qeq_bool_iff in H.
      rewrite H in Hd. by apply Qlt_irrefl in Hd. }
    eexists. split; [reflexivity|].
    assert (0 <= (clientX - rect_left) / rect_width)%Q as H0.
    { apply Qle_shift_div_l; [assumption|]. rewrite Qmult_0_l.
      unfold Qminus. rewrite <- (Qplus_opp_r rect_left).
      by apply Qplus_le_l. }
    assert ((clientX - rect_left) / rect_width <= 1)%Q as H1.
    { apply Qle_shift_div_r; [assumption|]. rewrite Qmult_1_l.
      unfold Qminus. apply (Qplus_le_l _ _ rect_left).
      rewrite <- Qplus_assoc, (Qplus_comm (- rect_left)), Qplus_opp_r,
        Qplus_0_r, (Qplus_comm rect_width). exact Hr. }
    split.
    + apply Qmult_le_0_compat; [assumption | by apply Qlt_le_weak].
    + rewrite <- (Qmult_1_l (duration (audio e))) at 2.
      apply Qmult_le_compat_r; [assumption | by apply Qlt_le_weak].
Qed.

Lemma progress_click_seeks_in_range_witness :
  exists t,
    handleProgressClick half 150 100 200
      (mkEngine (with_loaded 40 (audio live_engine))
                (currentHowl live_engine) [] 2)
    = seekTo half t
        (mkEngine (with_loaded 40 (audio live_engine))
                  (currentHowl live_engine) [] 2) /\
    (0 <= t)%Q /\ (t <= 40)%Q.
Proof.
  destruct (progress_click_seeks_in_range half 150 100 200
              (mkEngine (with_loaded 40 (audio live_engine))
                        (currentHowl live_engine) [] 2)) as [_ H].
  apply H; [by eexists | | | |]; unfold Qlt, Qle; simpl; lia.
Defined.

(** * Properties of the position polling *)

(** The displayed time is refreshed at most once per 250 ms: a tick that
    refreshes it records its timestamp, and a tick less than 250 ms later
    leaves the whole state alone and only asks for the next frame.  When
    the effect's render was not playing, or there is no [Howl], a tick
    does nothing and asks for no frame. *)
Theorem polling_is_throttled (random : nat -> Q) (e : Engine)
    (p : Poller) (ts1 ts2 : Q) (pos1 pos2 : option Q) :
  (is_Some (currentHowl e) ->
   (250 <= ts1 - lastUpdateTime p)%Q -> (ts2 - ts1 < 250)%Q ->
   exists p1 e1 p2,
     updateTime random true ts1 pos1 p e = Some (p1, e1) /\
     currentTime (audio e1) = default 0%Q pos1 /\
     lastUpdateTime p1 = ts1 /\
     updateTime random true ts2 pos2 p1 e1 = Some (p2, e1) /\
     lastUpdateTime p2 = ts1 /\
     is_Some (animationFrame p2)) /\
  updateTime random false ts1 pos1 p e = Some (p, e) /\
  (currentHowl e = None ->
   updateTime random true ts1 pos1 p e = Some (p, e)).
Proof.
  split; [|split].
  - intros [h Hh] Hdue Hsoon. unfold updateTime, dispatch.
    destruct e as [[pl ct tm du vo lo ps ci sh rm si] cur rel made].
    simpl in *. subst cur.
    apply Qle_bool_iff in Hdue. rewrite Hdue. simpl.
    eexists _, _, _. split; [reflexivity|]. simpl.
    split; [reflexivity|]. split; [reflexivity|].
    assert (Qle_bool 250 (ts2 - ts1) = false) as ->.
    { apply not_true_is_false. intros H. apply Qle_bool_iff in H.
      by apply Qle_not_lt in H. }
    split; [reflexivity|]. split; [reflexivity|]. by eexists.
  - unfold updateTime. by destruct (currentHowl e).
  - intros Hh. unfold updateTime. by rewrite Hh.
Qed.

Lemma polling_is_throttled_witness :
  exists p1 e1 p2,
    updateTime half true 1000 (Some 7%Q) (mkPoller None 0 1) live_engine
      = Some (p1, e1) /\
    currentTime (audio e1) = 7%Q /\
    updateTime half true 1100 (Some 8%Q) p1 e1 = Some (p2, e1).
Proof.
  destruct (polling_is_throttled half live_engine (mkPoller None 0 1)
              1000 1100 (Some 7%Q) (Some 8%Q)) as [H _].
  destruct H as (p1 & e1 & p2 & H1 & Ht & _ & H2 & _).
  - by eexists.
  - unfold Qle. simpl. lia.
  - unfold Qlt. simpl. lia.
  - exists p1, e1, p2. by repeat split.
Defined.

(** * Further properties of the bars *)

Module BarMore.
Import Waveform TapSpec LoopSpec BarFacts.

Lemma bar_index_0 : (bar_index 0 == 0)%Q.
Proof. reflexivity. Qed.



End BarMore.

(** * Further properties of the signal tap *)

Module TapMore.
Import Waveform TapSpec LoopSpec WaveformEffects TapFacts BarFacts.

Lemma singletons_core t t' :
  audioContextRef t' = audioContextRef t -> analyserRef t' = analyserRef t ->
  dataArrayRef t' = dataArrayRef t ->
  contexts_created t' = contexts_created t ->
  analysers_created t' = analysers_created t ->
  lazy_singletons t -> lazy_singletons t'.
Proof. unfold lazy_singletons. intros -> -> -> -> ->. tauto. Qed.

Lemma connect_both_core env t :
  tap_core (connect_both env t) = tap_core t.
Proof.
  unfold connect_both.
  destruct (sourceNodeRef t), (analyserRef t) eqn:Ha; try reflexivity.
  destruct (connect_analyser_throws env); [reflexivity|].
  by destruct (connect_destination_throws env).
Qed.

Lemma tap_element_core env h el t :
  tap_core (tap_element env h el t).2 = tap_core t.
Proof.
  unfold tap_element.
  destruct (_ && _ && _); [reflexivity|].
  destruct (2 <=? _); [|reflexivity].
  destruct (audioSourceNode _).
  - cbn [snd].
    match goal with |- context [connect_both env ?x] =>
      transitivity (tap_core (connect_both env x));
        [reflexivity | by rewrite connect_both_core] end.
  - destruct (create_source_throws env); [reflexivity|].
    cbn [snd].
    match goal with |- context [connect_both env ?x] =>
      transitivity (tap_core (connect_both env x));
        [reflexivity | by rewrite connect_both_core] end.
Qed.

Lemma drop_source_core env t : tap_core (drop_source env t) = tap_core t.
Proof.
  unfold drop_source. destruct (sourceNodeRef t); [|reflexivity].
  by destruct (disconnect_throws env).
Qed.

Lemma clear_previous_marks_core h t :
  tap_core (clear_previous_marks h t) = tap_core t.
Proof.
  unfold clear_previous_marks.
  destruct (connectedHowlRef t); [|reflexivity].
  destruct (bool_decide _); [|reflexivity].
  by destruct (elements t !! p).
Qed.

Lemma singletons_of_core t t' :
  tap_core t' = tap_core t -> lazy_singletons t -> lazy_singletons t'.
Proof.
  unfold tap_core. intros [= H1 H2 H3 H4 H5]. by apply singletons_core.
Qed.

Lemma singletons_new_analyser t :
  analyserRef t = None -> lazy_singletons t -> lazy_singletons (new_analyser t).
Proof.
  intros Ha (Hc & Hn & _ & _). unfold lazy_singletons, new_analyser. cbn.
  rewrite Ha in Hn. split; [exact Hc|]. split; [by rewrite Hn|].
  split; [|discriminate].
  intros a [= <-]. cbn. repeat split. eexists. split; [reflexivity|].
  reflexivity.
Qed.

Lemma singletons_setup env howl t :
  lazy_singletons t -> lazy_singletons (setupAudioAnalyser env howl t).2.
Proof.
  intros Hs. unfold setupAudioAnalyser.
  destruct howl as [h|]; [|exact Hs].
  destruct (_ && _ && _); [exact Hs|].
  assert (exists t1,
    match audioContextRef t with
    | Some _ => Some t
    | None => if constructor_throws env then None
              else Some (new_context (starts_suspended env) t)
    end = t1 /\ forall t', t1 = Some t' -> lazy_singletons t') as (t1 & -> & H1).
  { eexists. split; [reflexivity|].
    destruct (audioContextRef t) eqn:Hctx.
    - by intros t' [= <-].
    - destruct (constructor_throws env); [discriminate|].
      intros t' [= <-]. destruct Hs as (Hc & Hn & Ha & Hd).
      unfold lazy_singletons, new_context. cbn. rewrite Hctx in Hc.
      by rewrite Hc. }
  destruct t1 as [t1|]; [|exact Hs].
  specialize (H1 t1 eq_refl). cbn.
  assert (exists t2,
    match audioContextRef t1 with
    | Some {| ctx_id := c; ctx_state := Suspended |} =>
        if resume_rejects env then None
        else Some (set_context (Some (mkAudioCtx c Running)) t1)
    | _ => Some t1
    end = t2 /\ forall t', t2 = Some t' -> lazy_singletons t') as (t2 & -> & H2).
  { eexists. split; [reflexivity|].
    destruct (audioContextRef t1) as [[c []]|] eqn:Hctx;
      try (by intros t' [= <-]).
    destruct (resume_rejects env); [discriminate|].
    intros t' [= <-]. destruct H1 as (Hc & Hn & Ha & Hd).
    unfold lazy_singletons, set_context. cbn. by rewrite Hctx in Hc. }
  destruct t2 as [t2|]; [|exact H1].
  specialize (H2 t2 eq_refl). cbn.
  assert (lazy_singletons (clear_previous_marks h (drop_source env t2)))
    as H3.
  { eapply singletons_of_core; [|exact H2].
    by rewrite clear_previous_marks_core, drop_source_core. }
  set (t3 := clear_previous_marks h (drop_source env t2)) in *.
  assert (lazy_singletons
            match analyserRef t3 with Some _ => t3 | None => new_analyser t3 end)
    as H4.
  { destruct (analyserRef t3) eqn:Ha; [exact H3|].
    by apply singletons_new_analyser. }
  set (t4 := match analyserRef t3 with
             | Some _ => t3 | None => new_analyser t3 end) in *.
  destruct (elements t4 !! h) as [el|]; [|exact H4].
  eapply singletons_of_core; [apply tap_element_core | exact H4].
Qed.

Lemma singletons_draw Math_sin spectrum now playing t :
  lazy_singletons t ->
  lazy_singletons (drawFrequencyBars Math_sin spectrum now playing t).2.
Proof.
  intros Hs. unfold drawFrequencyBars.
  destruct (canvasRef t) as [canvas|]; [|exact Hs].
  destruct (negb _); [exact Hs|].
  assert (forall t', tap_core t' = tap_core t ->
            lazy_singletons (if playing then request_frame t'
                             else set_frame None t')) as Hsame.
  { intros t' Hc. eapply singletons_of_core; [|exact Hs].
    rewrite <- Hc. by destruct playing. }
  destruct (dataArrayRef t) as [d|] eqn:Hd;
    [destruct (hasRealAudioData t)|]; cbn [snd];
    try (by apply Hsame).
  destruct Hs as (Hc & Hn & Ha & Hnone).
  assert (lazy_singletons
            (set_data (Some (getByteFrequencyData spectrum d)) t)) as Hs'.
  { unfold lazy_singletons, set_data. cbn.
    split; [exact Hc|]. split; [exact Hn|]. split.
    - intros a Hana. destruct (Ha a Hana) as (H1 & H2 & d' & Hd' & Hlen).
      repeat split; try assumption.
      eexists. split; [reflexivity|].
      unfold getByteFrequencyData. rewrite length_fmap, length_seq.
      congruence.
    - intros Hana. specialize (Hnone Hana). congruence. }
  eapply singletons_of_core; [|exact Hs']. by destruct playing.
Qed.

(** One shared analysis context and one analyser, made once: starting
    from a component that has not attached, whatever attaches, loop steps
    and changes of the audio elements follow, at most one context and one
    analyser are ever created, the analyser has transform size 512 and
    smoothing 0.8, and its buffer has 256 bins. *)
Theorem analysis_objects_made_once (Math_sin : Q -> Q) (ops : list TapOp)
    (t : Tap) :
  pristine t ->
  lazy_singletons (run_taps Math_sin ops t) /\
  (contexts_created (run_taps Math_sin ops t) <= 1)%nat /\
  (analysers_created (run_taps Math_sin ops t) <= 1)%nat.
Proof.
  intros (Hc & Ha & Hd & _ & Hcc & Hac).
  assert (lazy_singletons t) as Hs.
  { unfold lazy_singletons. rewrite Hc, Ha, Hcc, Hac.
    repeat split; try discriminate. by intros _. }
  assert (lazy_singletons (run_taps Math_sin ops t)) as Hfin.
  { clear -Hs. unfold run_taps. revert t Hs.
    induction ops as [|op rest IH]; intros t Hs; [exact Hs|].
    simpl. apply IH. destruct op; simpl.
    - by apply singletons_setup.
    - by apply singletons_draw.
    - eapply singletons_of_core; [|exact Hs]. reflexivity. }
  split; [exact Hfin|].
  destruct Hfin as (H1 & H2 & _). rewrite H1, H2.
  split; [destruct (audioContextRef (run_taps Math_sin ops t))
         |destruct (analyserRef (run_taps Math_sin ops t))]; lia.
Qed.

Lemma analysis_objects_made_once_witness :
  lazy_singletons
    (run_taps flat
       [TapAttach calm (Some 1%positive); TapDraw silence 0 true;
        TapAttach stormy (Some 2%positive); TapAttach calm None]
       fresh_tap).
Proof.
  apply (analysis_objects_made_once flat _ fresh_tap).
  by repeat split.
Defined.

End TapMore.

(** * Properties of the loop *)

Module LoopMore.
Import Waveform TapSpec LoopSpec LoopSpec2 WaveformEffects TapFacts BarFacts.

(** With the buffer [setupAudioAnalyser] allocates, bar [i] of the
    real-data path shows bin [2 i] (so bins 0 to 190 of the 256): its
    height is that byte over 255 times 0.85 of the canvas height, hence
    between 0 and 0.85 of the canvas height, and it glows exactly when the
    byte is 128 or more. *)
Theorem real_bars_show_even_bins (Math_sin : Q -> Q)
    (spectrum : nat -> Byte.byte) (now : Q) (playing : bool) (t : Tap)
    (canvas : Canvas) :
  lazy_singletons t -> has_binding t ->
  canvasRef t = Some canvas -> has_2d_context canvas = true ->
  (0 <= canvas_height canvas)%Q ->
  exists frame,
    (drawFrequencyBars Math_sin spectrum now playing t).1 = Some frame /\
    path frame = RealData /\
    forall i, (i < 96)%nat ->
      exists b hgt,
        bars frame !! i = Some b /\
        bar_height b = Some hgt /\
        hgt = (byte_value (spectrum (i * 2)%nat) / 255
               * canvas_height canvas * (85 # 100))%Q /\
        (0 <= hgt)%Q /\ (hgt <= canvas_height canvas * (85 # 100))%Q /\
        (bar_glow b = true
         <-> (128 <= Byte.to_N (spectrum (i * 2)%nat))%N).
Proof.
  intros (_ & _ & Hana & _) Hb Hc H2d HH.
  pose proof Hb as ([a Ha] & _ & _).
  destruct (Hana a Ha) as (_ & _ & d & Hd & Hlen).
  apply hasRealAudioData_spec in Hb.
  rewrite (step_frame _ _ _ _ t canvas Hc H2d). cbv zeta.
  rewrite Hd, Hb. cbn [fst]. eexists. split; [reflexivity|].
  cbn [path bars]. split; [reflexivity|].
  intros i Hi.
  assert (getByteFrequencyData spectrum d !! (i * 2)%nat
          = Some (spectrum (i * 2)%nat)) as Hread.
  { unfold getByteFrequencyData.
    rewrite list_lookup_fmap, lookup_seq_lt by lia. reflexivity. }
  assert (length (getByteFrequencyData spectrum d) `div` barCount = 2)%nat
    as Hstep.
  { unfold getByteFrequencyData. rewrite length_fmap, length_seq, Hlen.
    reflexivity. }
  eexists _, _. rewrite real_bars_lookup by (unfold barCount; lia).
  split; [reflexivity|]. unfold real_bar. cbn [bar_height bar_glow].
  rewrite Hstep, Hread. cbn [fmap option_fmap option_map from_option].
  split; [reflexivity|]. split; [reflexivity|].
  destruct (normalized_range (spectrum (i * 2)%nat)) as [Hv0 Hv1].
  split; [|split].
  - apply Qmult_le_0_compat; [|unfold Qle; simpl; lia].
    by apply Qmult_le_0_compat.
  - apply Qmult_le_compat_r; [|unfold Qle; simpl; lia].
    rewrite <- (Qmult_1_l (canvas_height canvas)) at 2.
    by apply Qmult_le_compat_r.
  - rewrite negb_true_iff, <- not_true_iff_false, Qle_bool_iff.
    unfold byte_value.
    pose proof (Byte.to_N_bounded (spectrum (i * 2)%nat)) as Hbyte.
    set (n := Byte.to_N (spectrum (i * 2)%nat)) in *. clearbody n.
    unfold Qle, Qdiv, Qmult, Qinv, inject_Z. simpl. lia.
Qed.

Lemma real_bars_show_even_bins_witness :
  exists frame,
    (drawFrequencyBars flat silence 0 true attached_tap).1 = Some frame /\
    path frame = RealData.
Proof.
  destruct (real_bars_show_even_bins flat silence 0 true attached_tap
              (mkCanvas 800 120 true)) as (frame & Hrun & Hpath & _).
  - split; [reflexivity|]. split; [reflexivity|]. split; [|discriminate].
    intros a0 [= <-]. split; [reflexivity|]. split; [reflexivity|].
    by eexists.
  - repeat split; by eexists.
  - reflexivity.
  - reflexivity.
  - unfold Qle. simpl. lia.
  - exists frame. by split.
Defined.

Section Frame.

Context {A : Type} (f : Tap -> A).
Hypothesis f_new_context : forall s t, f (new_context s t) = f t.
Hypothesis f_set_context : forall c t, f (set_context c t) = f t.
Hypothesis f_drop_source : forall env t, f (drop_source env t) = f t.
Hypothesis f_clear_marks : forall h t, f (clear_previous_marks h t) = f t.
Hypothesis f_new_analyser : forall t, f (new_analyser t) = f t.
Hypothesis f_tap_element :
  forall env h el t, f (tap_element env h el t).2 = f t.

Lemma attach_tail_frame env h t :
  f (let t := drop_source env t in
     let t := clear_previous_marks h t in
     let t := match analyserRef t with
              | Some _ => t
              | None => new_analyser t
              end in
     match elements t !! h with
     | Some el => tap_element env h el t
     | None => (false, t)
     end).2 = f t.
Proof.
  cbv zeta.
  set (t1 := clear_previous_marks h (drop_source env t)).
  assert (f t1 = f t) as H1
      by (unfold t1; by rewrite f_clear_marks, f_drop_source).
  set (t2 := match analyserRef t1 with
             | Some _ => t1 | None => new_analyser t1 end).
  assert (f t2 = f t) as H2.
  { unfold t2. destruct (analyserRef t1); [exact H1|].
    by rewrite f_new_analyser. }
  destruct (elements t2 !! h) as [el|]; [|exact H2].
  by rewrite f_tap_element.
Qed.

(** What every stage of an attach leaves alone, the attach leaves alone. *)
Lemma setup_frame env howl t :
  f (setupAudioAnalyser env howl t).2 = f t.
Proof.
  unfold setupAudioAnalyser. destruct howl as [h|]; [|reflexivity].
  destruct (_ && _ && _); [reflexivity|].
  destruct (audioContextRef t) as [[c st]|] eqn:Hctx.
  - cbn iota. rewrite Hctx. destruct st.
    + apply attach_tail_frame.
    + destruct (resume_rejects env); [reflexivity|].
      change (f (let t := drop_source env
                             (set_context (Some (mkAudioCtx c Running)) t) in
                 let t := clear_previous_marks h t in
                 let t := match analyserRef t with
                          | Some _ => t
                          | None => new_analyser t
                          end in
                 match elements t !! h with
                 | Some el => tap_element env h el t
                 | None => (false, t)
                 end).2 = f t).
      by rewrite attach_tail_frame, f_set_context.
    + apply attach_tail_frame.
  - destruct (constructor_throws env); [reflexivity|]. cbn iota.
    destruct (starts_suspended env); cbn [new_context audioContextRef].
    + destruct (resume_rejects env); [apply (f_new_context true)|].
      change (f (let t := drop_source env
                             (set_context
                                (Some (mkAudioCtx (contexts_created t) Running))
                                (new_context true t)) in
                 let t := clear_previous_marks h t in
                 let t := match analyserRef t with
                          | Some _ => t
                          | None => new_analyser t
                          end in
                 match elements t !! h with
                 | Some el => tap_element env h el t
                 | None => (false, t)
                 end).2 = f t).
      by rewrite attach_tail_frame, f_set_context, f_new_context.
    + change (f (let t := drop_source env (new_context false t) in
                 let t := clear_previous_marks h t in
                 let t := match analyserRef t with
                          | Some _ => t
                          | None => new_analyser t
                          end in
                 match elements t !! h with
                 | Some el => tap_element env h el t
                 | None => (false, t)
                 end).2 = f t).
      by rewrite attach_tail_frame, f_new_context.
Qed.

End Frame.

Lemma tap_element_loop_core env h el t :
  loop_core (tap_element env h el t).2 = loop_core t.
Proof.
  unfold tap_element.
  destruct (_ && _ && _); [reflexivity|].
  destruct (2 <=? _); [|reflexivity].
  assert (forall t', loop_core (connect_both env t') = loop_core t') as Hcb.
  { intros t'. unfold connect_both.
    destruct (sourceNodeRef t'), (analyserRef t'); try reflexivity.
    destruct (connect_analyser_throws env); [reflexivity|].
    by destruct (connect_destination_throws env). }
  destruct (audioSourceNode _).
  - cbn [snd].
    match goal with |- context [connect_both env ?x] =>
      transitivity (loop_core (connect_both env x));
        [reflexivity | by rewrite Hcb] end.
  - destruct (create_source_throws env); [reflexivity|].
    cbn [snd].
    match goal with |- context [connect_both env ?x] =>
      transitivity (loop_core (connect_both env x));
        [reflexivity | by rewrite Hcb] end.
Qed.

(** An attach leaves the canvas, the pending frame and the count of
    requested frames alone. *)
Lemma setup_loop_core env howl t :
  loop_core (setupAudioAnalyser env howl t).2 = loop_core t.
Proof.
  apply (setup_frame loop_core); try reflexivity.
  - intros env' t'. unfold drop_source.
    destruct (sourceNodeRef t'); [|reflexivity].
    by destruct (disconnect_throws env').
  - intros h t'. unfold clear_previous_marks.
    destruct (connectedHowlRef t'); [|reflexivity].
    destruct (bool_decide _); [|reflexivity].
    by destruct (elements t' !! p).
  - apply tap_element_loop_core.
Qed.

Lemma draw_with_canvas Math_sin spectrum now t canvas :
  canvasRef t = Some canvas -> has_2d_context canvas = true ->
  exists frame t1,
    drawFrequencyBars Math_sin spectrum now true t = (Some frame, t1) /\
    loop_core t1
      = (Some canvas, Some (S (frames_requested t)), S (frames_requested t)).
Proof.
  intros Hc H2d. rewrite (step_frame _ _ _ _ t canvas Hc H2d). cbv zeta.
  destruct (dataArrayRef t); [destruct (hasRealAudioData t)|];
    eexists _, _; (split; [reflexivity|]);
    unfold loop_core; cbn; by rewrite Hc.
Qed.

(** The loop is single-flight and stops with playback.  When a render
    turns playing on and no frame is pending, the three effects together
    paint one frame and request exactly one next frame; when a frame is
    pending they paint and request nothing; when playing is off they
    cancel the pending frame, paint nothing and do not attach. *)
Theorem loop_is_single_flight (Math_sin : Q -> Q)
    (spectrum : nat -> Byte.byte) (now : Q) (env : AttachEnv)
    (howl : option positive) (t : Tap) :
  (forall canvas,
     canvasRef t = Some canvas -> has_2d_context canvas = true ->
     animationFrameRef t = None ->
     exists frame c',
       on_playing_change Math_sin spectrum now env howl true (mounted t)
         = ([frame], c') /\
       animationFrameRef (tap c') = Some (S (frames_requested t)) /\
       frames_requested (tap c') = S (frames_requested t) /\
       frames_cancelled c' = []) /\
  (forall f,
     animationFrameRef t = Some (S f) ->
     exists c',
       on_playing_change Math_sin spectrum now env howl true (mounted t)
         = ([], c') /\
       loop_core (tap c') = loop_core t /\
       frames_cancelled c' = []) /\
  (on_playing_change Math_sin spectrum now env howl false (mounted t)
     = ([], cancel_frame (mounted t)) /\
   animationFrameRef (tap (cancel_frame (mounted t))) = None /\
   frames_cancelled (cancel_frame (mounted t))
     = option_list (animationFrameRef t) /\
   frames_requested (tap (cancel_frame (mounted t))) = frames_requested t).
Proof.
  split; [|split].
  - intros canvas Hc H2d Hf.
    destruct (draw_with_canvas Math_sin spectrum now t canvas Hc H2d)
      as (frame & t1 & Hdraw & Hcore).
    injection Hcore as Hc1 Hf1 Hn1.
    pose proof (setup_loop_core env howl t1) as Hs.
    unfold loop_core in Hs. injection Hs as _ Hsf Hsn.
    cbv beta iota zeta delta
      [on_playing_change effect_run effect_restart effect_attach draw
       mounted with_tap tap isReady isCleaningUpRef frames_cancelled
       contexts_closed andb option_list].
    rewrite Hf.
    cbv beta iota zeta delta [tap].
    rewrite Hdraw.
    cbv beta iota zeta delta
      [with_tap tap isReady isCleaningUpRef frames_cancelled
       contexts_closed andb option_list].
    rewrite Hf1.
    cbv beta iota zeta delta
      [with_tap tap isReady isCleaningUpRef frames_cancelled
       contexts_closed andb option_list app].
    eexists _, _. split; [reflexivity|].
    cbv beta iota zeta delta [tap frames_cancelled].
    rewrite Hsf, Hsn, Hf1, Hn1. by repeat split.
  - intros f Hf.
    unfold on_playing_change, effect_run, effect_restart, effect_attach,
      draw, mounted.
    cbn [tap isReady andb]. rewrite Hf.
    cbn [tap isReady andb]. rewrite Hf.
    eexists. split; [reflexivity|]. unfold with_tap. cbn.
    split; [apply setup_loop_core | reflexivity].
  - unfold on_playing_change, effect_run, effect_restart, effect_attach,
      cancel_frame, mounted. cbn [tap isReady andb].
    destruct (animationFrameRef t) as [f|] eqn:Hf; cbn; by repeat split.
Qed.

Lemma loop_is_single_flight_witness :
  exists frame c',
    on_playing_change flat silence 0 calm (Some 1%positive) true
      (mounted fresh_tap) = ([frame], c') /\
    animationFrameRef (tap c') = Some 1%nat.
Proof.
  destruct (loop_is_single_flight flat silence 0 calm (Some 1%positive)
              fresh_tap) as (Hstart & _).
  destruct (Hstart (mkCanvas 800 120 true) eq_refl eq_refl eq_refl)
    as (frame & c' & Hrun & Hf & _).
  exists frame, c'. split; [exact Hrun | exact Hf].
Defined.

(** Teardown is idempotent.  The cleanup of a mounted component cancels
    the pending frame and forgets the source node, the context and the
    connected [Howl]; a second cleanup changes nothing; the analyser and
    its buffer are kept, but with the source node gone the loop would take
    the synthetic path. *)
Theorem cleanup_is_idempotent (d1 c1 d2 c2 : bool) (c : Component) :
  isCleaningUpRef c = false ->
  animationFrameRef (tap (cleanup d1 c1 c)) = None /\
  sourceNodeRef (tap (cleanup d1 c1 c)) = None /\
  audioContextRef (tap (cleanup d1 c1 c)) = None /\
  connectedHowlRef (tap (cleanup d1 c1 c)) = None /\
  analyserRef (tap (cleanup d1 c1 c)) = analyserRef (tap c) /\
  dataArrayRef (tap (cleanup d1 c1 c)) = dataArrayRef (tap c) /\
  hasRealAudioData (tap (cleanup d1 c1 c)) = false /\
  frames_cancelled (cleanup d1 c1 c)
    = frames_cancelled c ++ option_list (animationFrameRef (tap c)) /\
  cleanup d2 c2 (cleanup d1 c1 c) = cleanup d1 c1 c.
Proof.
  intros Hflag.
  destruct c as [[cv af ctx an da sn ch el ed cc ac sc fr]
                 flag ready cancelled closed].
  simpl in Hflag. subst flag.
  assert (forall x y : bool, x && y && bool_decide (is_Some (@None nat))
                             = false) as Hnone.
  { intros x y. by rewrite andb_false_r. }
  unfold hasRealAudioData.
  destruct af as [f|], sn as [s|], ctx as [[cid []]|], d1, c1;
    cbn; rewrite ?app_nil_r, ?Hnone; by repeat split.
Qed.

Lemma cleanup_is_idempotent_witness :
  cleanup true true (cleanup false false (mounted attached_tap))
    = cleanup false false (mounted attached_tap) /\
  hasRealAudioData (tap (cleanup false false (mounted attached_tap)))
    = false.
Proof.
  destruct (cleanup_is_idempotent false false true true
              (mounted attached_tap) eq_refl)
    as (_ & _ & _ & _ & _ & _ & Hreal & _ & Hagain).
  split; [exact Hagain | exact Hreal].
Defined.

End LoopMore.

(** * Further properties of attaching *)

Module AttachMore.
Import Waveform TapSpec LoopSpec AttachSpec TapFacts.

Lemma setup_eq env h t :
  setupAudioAnalyser env (Some h) t =
    if same_howl (connectedHowlRef t) h
       && bool_decide (is_Some (analyserRef t))
       && bool_decide (is_Some (sourceNodeRef t))
    then (true, t)
    else
      let '(t0, ok) := attach_context env t in
      if ok then attach_tail env h t0 else (false, t0).
Proof.
  unfold setupAudioAnalyser, attach_context, attach_tail.
  destruct (_ && _ && _); [reflexivity|].
  destruct (audioContextRef t) as [[c st]|] eqn:Hctx.
  - cbn iota. rewrite Hctx. destruct st; try reflexivity.
    by destruct (resume_rejects env).
  - destruct (constructor_throws env); [reflexivity|]. cbn iota.
    destruct (starts_suspended env); cbn [new_context audioContextRef];
      [|reflexivity].
    by destruct (resume_rejects env).
Qed.

(** What the first stage leaves alone. *)
Lemma attach_context_frame env t :
  sourceNodeRef (attach_context env t).1 = sourceNodeRef t /\
  connectedHowlRef (attach_context env t).1 = connectedHowlRef t /\
  elements (attach_context env t).1 = elements t /\
  analyserRef (attach_context env t).1 = analyserRef t /\
  sources_created (attach_context env t).1 = sources_created t /\
  edges (attach_context env t).1 = edges t.
Proof.
  unfold attach_context.
  destruct (audioContextRef t) as [[c []]|];
    repeat (match goal with |- context [if ?b then _ else _] =>
              destruct b end); by repeat split.
Qed.

Lemma unmarked_eq el :
  (if bool_decide
        (is_Some (audioSourceNode (if is_marked el then remove_mark el else el)))
   then clear_source (if is_marked el then remove_mark el else el)
   else if is_marked el then remove_mark el else el) = unmarked el.
Proof.
  unfold unmarked, remove_mark, clear_source.
  destruct (is_marked el); cbn;
    destruct el as [dc [s|] r]; cbn; reflexivity.
Qed.

(** [tap_element] on a tap without source node, in one equation: the reuse
    branches are dead. *)
Lemma tap_element_eq env h el t :
  sourceNodeRef t = None ->
  tap_element env h el t =
    let t1 := set_elements (<[h := unmarked el]> (elements t)) t in
    if 2 <=? readyState el then
      if create_source_throws env then (false, t1)
      else
        (true,
         set_connected (Some h)
           (set_elements
              (alter set_mark h
                 (elements (connect_both env (new_source h (unmarked el) t1))))
              (connect_both env (new_source h (unmarked el) t1))))
    else (false, set_connected (Some h) t1).
Proof.
  intros Hs. unfold tap_element. rewrite Hs.
  assert (bool_decide (is_Some (@None nat)) = false) as -> by reflexivity.
  rewrite andb_false_r. rewrite unmarked_eq. cbv zeta.
  assert (readyState (unmarked el) = readyState el) as -> by reflexivity.
  destruct (2 <=? readyState el); reflexivity.
Qed.

Lemma attach_tail_source_none env h t :
  sourceNodeRef
    (match analyserRef (clear_previous_marks h (drop_source env t)) with
     | Some _ => clear_previous_marks h (drop_source env t)
     | None => new_analyser (clear_previous_marks h (drop_source env t))
     end) = None /\
  sources_created
    (match analyserRef (clear_previous_marks h (drop_source env t)) with
     | Some _ => clear_previous_marks h (drop_source env t)
     | None => new_analyser (clear_previous_marks h (drop_source env t))
     end) = sources_created t.
Proof.
  assert (sourceNodeRef (drop_source env t) = None /\
          sources_created (drop_source env t) = sources_created t) as [H1 H1'].
  { unfold drop_source. destruct (sourceNodeRef t) eqn:Hs; [|by split].
    by destruct (disconnect_throws env). }
  assert (sourceNodeRef (clear_previous_marks h (drop_source env t)) = None /\
          sources_created (clear_previous_marks h (drop_source env t))
          = sources_created t) as [H2 H2'].
  { unfold clear_previous_marks.
    destruct (connectedHowlRef _); [|by split].
    destruct (bool_decide _); [|by split].
    by destruct (elements _ !! p). }
  by destruct (analyserRef _).
Qed.

Lemma connect_both_frame env t :
  sourceNodeRef (connect_both env t) = sourceNodeRef t /\
  sources_created (connect_both env t) = sources_created t /\
  elements (connect_both env t) = elements t /\
  connectedHowlRef (connect_both env t) = connectedHowlRef t.
Proof.
  unfold connect_both.
  destruct (sourceNodeRef t) eqn:Hs, (analyserRef t); try by repeat split.
  destruct (connect_analyser_throws env); [by repeat split|].
  destruct (connect_destination_throws env); by repeat split.
Qed.

(** No source node is ever reused: an attach that succeeds either is the
    short circuit of a working binding, which changes nothing, or made a
    new source node, whatever marks the audio element carried. *)
Theorem attach_never_reuses_source (env : AttachEnv) (h : positive)
    (t t' : Tap) :
  setupAudioAnalyser env (Some h) t = (true, t') ->
  (working_binding h t /\ t' = t) \/
  (sourceNodeRef t' = Some (sources_created t) /\
   sources_created t' = S (sources_created t)).
Proof.
  rewrite setup_eq.
  destruct (_ && _ && _) eqn:Hfast.
  - intros [= <-]. left. split; [|reflexivity].
    apply andb_prop in Hfast as [Hfast Hs].
    apply andb_prop in Hfast as [Hc Ha].
    apply bool_decide_eq_true in Hc, Ha, Hs. by repeat split.
  - destruct (attach_context env t) as [t0 ok] eqn:Hctx.
    pose proof (attach_context_frame env t) as (_ & _ & _ & _ & Hn & _).
    rewrite Hctx in Hn. cbn [fst] in Hn.
    destruct ok; [|discriminate].
    unfold attach_tail. cbv zeta.
    destruct (attach_tail_source_none env h t0) as [Hs Hn'].
    set (t4 := match analyserRef (clear_previous_marks h (drop_source env t0))
               with
               | Some _ => clear_previous_marks h (drop_source env t0)
               | None =>
                   new_analyser (clear_previous_marks h (drop_source env t0))
               end) in *.
    destruct (elements t4 !! h) as [el|]; [|discriminate].
    rewrite (tap_element_eq env h el t4 Hs). cbv zeta.
    destruct (2 <=? readyState el); [|discriminate].
    destruct (create_source_throws env); [discriminate|].
    intros [= <-]. right. cbn [sourceNodeRef sources_created set_connected
                                set_elements].
    match goal with |- context [connect_both env ?x] =>
      destruct (connect_both_frame env x) as (-> & -> & _) end.
    cbn. rewrite Hn', Hn. by split.
Qed.

Lemma attach_never_reuses_source_witness :
  sourceNodeRef attached_tap = Some 0%nat /\
  sources_created attached_tap = 1%nat.
Proof.
  destruct (attach_never_reuses_source calm 1 fresh_tap attached_tap eq_refl)
    as [[(_ & _ & [s Hs]) _] | H].
  - discriminate Hs.
  - exact H.
Defined.

Lemma drop_source_none env t :
  sourceNodeRef t = None -> drop_source env t = t.
Proof. intros H. unfold drop_source. by rewrite H. Qed.

Lemma clear_marks_frame h t :
  sourceNodeRef (clear_previous_marks h t) = sourceNodeRef t /\
  connectedHowlRef (clear_previous_marks h t) = connectedHowlRef t /\
  analyserRef (clear_previous_marks h t) = analyserRef t /\
  audioContextRef (clear_previous_marks h t) = audioContextRef t /\
  sources_created (clear_previous_marks h t) = sources_created t /\
  elements (clear_previous_marks h t) !! h = elements t !! h.
Proof.
  unfold clear_previous_marks.
  destruct (connectedHowlRef t) as [prev|] eqn:Hc; [|by repeat split].
  destruct (bool_decide (prev ≠ h)) eqn:Hne; [|by repeat split].
  apply bool_decide_eq_true in Hne.
  destruct (elements t !! prev) eqn:Hel; [|by repeat split].
  cbn. repeat split; try assumption. by rewrite lookup_insert_ne.
Qed.

Lemma clear_marks_same h t :
  connectedHowlRef t = Some h -> clear_previous_marks h t = t.
Proof.
  intros Hc. unfold clear_previous_marks. rewrite Hc.
  by rewrite bool_decide_eq_false_2 by (intros H; by apply H).
Qed.

Lemma clear_marks_other h1 h2 t el1 :
  connectedHowlRef t = Some h1 -> h1 ≠ h2 -> elements t !! h1 = Some el1 ->
  clear_previous_marks h2 t
    = set_elements (<[h1 := clear_source (remove_mark el1)]> (elements t)) t.
Proof.
  intros Hc Hne Hel. unfold clear_previous_marks.
  by rewrite Hc, bool_decide_eq_true_2, Hel.
Qed.

Lemma tap_element_other env h h' el t :
  h' ≠ h -> sourceNodeRef t = None ->
  elements (tap_element env h el t).2 !! h' = elements t !! h'.
Proof.
  intros Hne Hs. rewrite (tap_element_eq env h el t Hs). cbv zeta.
  destruct (2 <=? readyState el).
  - destruct (create_source_throws env); cbn [snd].
    + cbn. by rewrite lookup_insert_ne.
    + cbn [elements set_connected set_elements].
      rewrite lookup_alter_ne by done.
      match goal with |- context [connect_both env ?x] =>
        destruct (connect_both_frame env x) as (_ & _ & -> & _) end.
      cbn. by rewrite !lookup_insert_ne.
  - cbn. by rewrite lookup_insert_ne.
Qed.

(** Attaching to another session first clears the marks left on the audio
    element of the session the tap was connected to: its
    ['data-connected'] attribute is removed and its source node reference
    is cleared, whether or not the new attach then succeeds. *)
Theorem switching_sessions_clears_marks (env : AttachEnv)
    (h1 h2 : positive) (t : Tap) (el1 : AudioElement) :
  connectedHowlRef t = Some h1 -> h1 ≠ h2 ->
  elements t !! h1 = Some el1 ->
  (attach_context env t).2 = true ->
  elements (setupAudioAnalyser env (Some h2) t).2 !! h1
    = Some (mkAudioElement None None (readyState el1)).
Proof.
  intros Hc Hne Hel Hok. rewrite setup_eq.
  assert (same_howl (connectedHowlRef t) h2 = false) as ->.
  { unfold same_howl. rewrite Hc. apply bool_decide_eq_false_2. congruence. }
  cbn [andb].
  pose proof (attach_context_frame env t) as (_ & Hc0 & He0 & _).
  destruct (attach_context env t) as [t0 ok]. cbn [fst snd] in *. subst ok.
  rewrite <- Hc0 in Hc. rewrite <- He0 in Hel. clear Hc0 He0.
  unfold attach_tail. cbv zeta.
  destruct (attach_tail_source_none env h2 t0) as [Hs _].
  assert (elements
            match analyserRef (clear_previous_marks h2 (drop_source env t0))
            with
            | Some _ => clear_previous_marks h2 (drop_source env t0)
            | None =>
                new_analyser (clear_previous_marks h2 (drop_source env t0))
            end !! h1 = Some (mkAudioElement None None (readyState el1)))
    as Hlook.
  { assert (elements (clear_previous_marks h2 (drop_source env t0)) !! h1
            = Some (mkAudioElement None None (readyState el1))) as H.
    { rewrite (clear_marks_other h1 h2 _ el1); try assumption.
      - cbn. by rewrite lookup_insert_eq.
      - unfold drop_source. destruct (sourceNodeRef t0); [|assumption].
        by destruct (disconnect_throws env).
      - unfold drop_source. destruct (sourceNodeRef t0); [|assumption].
        by destruct (disconnect_throws env). }
    by destruct (analyserRef _). }
  set (t4 := match analyserRef (clear_previous_marks h2 (drop_source env t0))
             with
             | Some _ => clear_previous_marks h2 (drop_source env t0)
             | None =>
                 new_analyser (clear_previous_marks h2 (drop_source env t0))
             end) in *.
  destruct (elements t4 !! h2) as [el|]; [|exact Hlook].
  by rewrite tap_element_other.
Qed.

(** A second [Howl] (id 2) appears next to the one the tap is bound to. *)
Lemma switching_sessions_clears_marks_witness :
  elements
    (setupAudioAnalyser calm (Some 2%positive)
       (set_elements
          (<[2%positive := mkAudioElement None None 0]>
             (elements attached_tap)) attached_tap)).2 !! 1%positive
  = Some (mkAudioElement None None 4).
Proof.
  apply (switching_sessions_clears_marks calm 1 2 _
           (mkAudioElement (Some "true") (Some 0%nat) 4));
    [reflexivity | discriminate | reflexivity | reflexivity].
Defined.

Lemma attach_context_ok env t :
  (attach_context env t).2 = true ->
  (exists c st, audioContextRef (attach_context env t).1
                = Some (mkAudioCtx c st) /\ st ≠ Suspended).
Proof.
  unfold attach_context.
  destruct (audioContextRef t) as [[c []]|] eqn:Hctx; cbn;
    repeat (match goal with |- context [if ?b then _ else _] =>
              destruct b end); cbn; try discriminate; intros _;
    try rewrite Hctx; eauto.
Qed.

Lemma attach_context_running env t c st :
  audioContextRef t = Some (mkAudioCtx c st) -> st ≠ Suspended ->
  attach_context env t = (t, true).
Proof.
  intros Hctx Hst. unfold attach_context. rewrite Hctx.
  by destruct st.
Qed.

(** An attach before the audio element has data fails without making a
    source node, and is safely retried: it leaves the tap connected to the
    [Howl] with analyser and context in place, and once the element has
    data the next attach makes the one source node, marks the element and
    gives a working binding. *)
Theorem attach_before_ready_can_be_retried (env env2 : AttachEnv)
    (h : positive) (t : Tap) (el : AudioElement) :
  (attach_context env t).2 = true ->
  sourceNodeRef t = None ->
  elements t !! h = Some el ->
  readyState el < 2 ->
  create_source_throws env2 = false ->
  exists t1 t2,
    setupAudioAnalyser env (Some h) t = (false, t1) /\
    sourceNodeRef t1 = None /\
    connectedHowlRef t1 = Some h /\
    sources_created t1 = sources_created t /\
    setupAudioAnalyser env2 (Some h) (element_ready h t1) = (true, t2) /\
    working_binding h t2 /\
    sources_created t2 = S (sources_created t) /\
    elements t2 !! h
      = Some (mkAudioElement (Some "true") (Some (sources_created t)) 4).
Proof.
  intros Hok Hs Hel Hready Hcreate.
  (* the first attach *)
  rewrite setup_eq. rewrite Hs.
  assert (bool_decide (is_Some (@None nat)) = false) as Hnone by reflexivity.
  rewrite Hnone, andb_false_r.
  pose proof (attach_context_frame env t) as (Hs0 & _ & He0 & _ & Hn0 & _).
  destruct (attach_context_ok env t Hok) as (c & st & Hctx0 & Hst).
  destruct (attach_context env t) as [t0 ok]. cbn [fst snd] in *. subst ok.
  rewrite Hs in Hs0. rewrite <- He0 in Hel.
  unfold attach_tail. cbv zeta. rewrite (drop_source_none env t0 Hs0).
  destruct (clear_marks_frame h t0) as (Hs1 & _ & _ & Hctx1 & Hn1 & He1).
  set (t1 := clear_previous_marks h t0) in *.
  assert (exists t2,
            match analyserRef t1 with
            | Some _ => t1 | None => new_analyser t1 end = t2 /\
            sourceNodeRef t2 = None /\ is_Some (analyserRef t2) /\
            audioContextRef t2 = Some (mkAudioCtx c st) /\
            sources_created t2 = sources_created t /\
            elements t2 !! h = Some el) as (t2 & -> & Hs2 & Ha2 & Hctx2 & Hn2 & He2).
  { eexists. split; [reflexivity|].
    destruct (analyserRef t1) eqn:Ha; cbn;
      rewrite ?Ha; repeat split; eauto; congruence. }
  rewrite He2, (tap_element_eq env h el t2 Hs2). cbv zeta.
  destruct (Z.leb_spec 2 (readyState el)); [lia|].
  eexists _, _. split; [reflexivity|].
  split; [exact Hs2|]. split; [reflexivity|]. split; [exact Hn2|].
  (* the retry *)
  set (t3 := element_ready h
               (set_connected (Some h)
                  (set_elements (<[h:=unmarked el]> (elements t2)) t2))).
  assert (sourceNodeRef t3 = None) as Hs3 by exact Hs2.
  assert (connectedHowlRef t3 = Some h) as Hc3 by reflexivity.
  assert (analyserRef t3 = analyserRef t2) as Ha3 by reflexivity.
  assert (audioContextRef t3 = Some (mkAudioCtx c st)) as Hctx3
      by exact Hctx2.
  assert (sources_created t3 = sources_created t) as Hn3 by exact Hn2.
  assert (elements t3 !! h
          = Some (mkAudioElement (data_connected (unmarked el)) None 4))
    as He3.
  { unfold t3, element_ready. cbn.
    by rewrite lookup_alter_eq, lookup_insert_eq. }
  rewrite setup_eq, Hs3, Hnone, andb_false_r.
  rewrite (attach_context_running env2 t3 c st Hctx3 Hst).
  unfold attach_tail. cbv zeta.
  rewrite (drop_source_none env2 t3 Hs3), (clear_marks_same h t3 Hc3).
  destruct Ha2 as [a Ha2]. rewrite Ha3, Ha2, He3.
  rewrite (tap_element_eq env2 h _ t3 Hs3). cbv zeta.
  cbn [readyState]. change (2 <=? 4) with true. cbv iota.
  rewrite Hcreate.
  split; [reflexivity|].
  match goal with |- context [connect_both env2 ?x] =>
    destruct (connect_both_frame env2 x) as (Hcs & Hcn & Hce & _);
    destruct (connect_both_refs env2 x) as (_ & Hca & _)
  end.
  split; [|split].
  - repeat split.
    + cbn [analyserRef set_connected set_elements]. rewrite Hca. cbn.
      rewrite ?Ha3, ?Ha2. by eexists.
    + cbn [sourceNodeRef set_connected set_elements]. rewrite Hcs. cbn.
      by eexists.
  - cbn [sources_created set_connected set_elements]. rewrite Hcn. cbn.
    by rewrite ?Hn3, ?Hn2.
  - cbn [elements set_connected set_elements]. rewrite Hce. cbn.
    rewrite lookup_alter_eq, lookup_insert_eq. cbn.
    by rewrite ?Hn3, ?Hn2.
Qed.

(** The element of the sample tap before its data arrived. *)
Lemma attach_before_ready_can_be_retried_witness :
  exists t1 t2,
    setupAudioAnalyser calm (Some 1%positive)
      (set_elements {[ 1%positive := mkAudioElement None None 1 ]} fresh_tap)
      = (false, t1) /\
    setupAudioAnalyser calm (Some 1%positive) (element_ready 1 t1)
      = (true, t2) /\
    working_binding 1 t2.
Proof.
  destruct (attach_before_ready_can_be_retried calm calm 1
              (set_elements {[ 1%positive := mkAudioElement None None 1 ]}
                 fresh_tap)
              (mkAudioElement None None 1))
    as (t1 & t2 & H1 & _ & _ & _ & H2 & Hb & _);
    [reflexivity | reflexivity | reflexivity | simpl; lia | reflexivity |].
  exists t1, t2. split; [exact H1|]. split; [exact H2 | exact Hb].
Defined.

End AttachMore.
